(** * OperationsCollector: from OpenAPI operations to n8n node properties

    A shallow embedding of [src/OperationsCollector.ts]
    ([BaseOperationsCollector] and its subclass [OperationsCollector]) and
    the properties of the collection algorithm stated in the specification.

    JavaScript objects that the collector only builds and hands on are
    records; the field objects it keeps in [_fields] and assigns to in place
    live in an explicit heap and are held by reference.  A call that may
    throw returns a [Completion]; the collector's methods run in a small
    state-and-exception monad in which, as in JavaScript, the state written
    before a [throw] stays written.  A thrown value need not have a text:
    the template literal of a catch handler may throw in its turn. *)

From Stdlib Require Import ZArith Ascii String.
From stdpp Require Import base option list strings.

Set Warnings "-register-all".
Open Scope string_scope.
Open Scope list_scope.

(** ** JavaScript values and completions *)

(** Plain JSON data: the raw pieces of the OpenAPI document (parameter
    objects, request bodies) and the property values the collector never
    looks into. *)
Inductive JsValue :=
| JsNull
| JsBool (b : bool)
| JsNumber (z : Z)
| JsString (s : string)
| JsArray (l : list JsValue)
| JsObject (l : list (string * JsValue)).

(** A thrown value, as a catch handler sees it.  [`${error}`] either gives
    a text (an Error object, a string, a number), or throws in its turn: a
    TypeError for a Symbol, whatever its [toString] throws for an object. *)
Inductive JsError :=
| Printable (text : string)
| Unprintable (raised : JsError).

Coercion Printable : string >-> JsError.

(** [Symbol()], as a thrown value. *)
Definition aSymbol : JsError :=
  Unprintable (Printable "TypeError: Cannot convert a Symbol value to a string").

(** How a call ends: it returns a value or throws one. *)
Inductive Outcome (E A : Type) :=
| Normal (a : A)
| Throw (e : E).
Arguments Normal {E A} a.
Arguments Throw {E A} e.

(** A call that may throw any value. *)
Abbreviation Completion := (Outcome JsError).

(** [`${error}`] *)
Definition toText (error : JsError) : Completion string :=
  match error with
  | Printable text => Normal text
  | Unprintable raised => Throw raised
  end.

(** [x] used as a condition, for an optional boolean property. *)
Definition truthy (x : option bool) : bool :=
  match x with Some b => b | None => false end.

(** [Array.prototype.map] with a callback that may throw: the first
    exception ends the iteration. *)
Fixpoint mapC {E A B} (f : A → Outcome E B) (l : list A) : Outcome E (list B) :=
  match l with
  | [] => Normal []
  | x :: l' =>
      match f x with
      | Normal y =>
          match mapC f l' with
          | Normal ys => Normal (y :: ys)
          | Throw e => Throw e
          end
      | Throw e => Throw e
      end
  end.

(** [String.prototype.toUpperCase] on the ASCII letters (HTTP methods). *)
Definition upper_ascii (c : ascii) : ascii :=
  let n := nat_of_ascii c in
  if (97 <=? n)%nat && (n <=? 122)%nat then ascii_of_nat (n - 32) else c.

Fixpoint toUpperCase (s : string) : string :=
  match s with
  | EmptyString => EmptyString
  | String c s' => String (upper_ascii c) (toUpperCase s')
  end.

(** ** The n8n descriptor types *)

Module Routing.
(** [routing: { request: { method, url } }] *)
Record t := { method : string; url : string }.
End Routing.

Module INodePropertyOptions.
(** One selectable operation of a resource. *)
Record t := {
  name : string;
  value : string;
  action : string;
  description : string;
  routing : Routing.t;
}.
End INodePropertyOptions.

Module DisplayOptions.
(** [displayOptions: { show: { resource: [...], operation: [...] } }];
    the operation selector itself carries no [operation] list. *)
Record t := {
  resource : list string;
  operation : option (list string);
}.
End DisplayOptions.

Module INodeProperties.
(** A field descriptor.  [options] holds nested fields (a collection) or
    selectable options (an options field), as in n8n-workflow. *)
Inductive t := Build {
  displayName : string;
  name : string;
  type : string;
  required : option bool;
  default : JsValue;
  placeholder : option string;
  description : option string;
  noDataExpression : option bool;
  typeOptions : option JsValue;
  routing : option JsValue;
  options : option (list (INodePropertyOptions.t + t));
  displayOptions : option DisplayOptions.t;
}.

(** [field.displayOptions = d] *)
Definition setDisplayOptions (d : DisplayOptions.t) (field : t) : t :=
  {| displayName := displayName field;
     name := name field;
     type := type field;
     required := required field;
     default := default field;
     placeholder := placeholder field;
     description := description field;
     noDataExpression := noDataExpression field;
     typeOptions := typeOptions field;
     routing := routing field;
     options := options field;
     displayOptions := Some d |}.
End INodeProperties.

(** ** The OpenAPI input *)

Module OperationObject.
Record t := {
  tags : option (list string);
  summary : option string;
  description : option string;
  operationId : option string;
  parameters : option (list JsValue);
  requestBody : option JsValue;
  deprecated : option bool;
}.
End OperationObject.

Module OperationContext.
(** The properties of the visitor's context that the collector reads. *)
Record t := { pattern : string; method : string }.
End OperationContext.

(** ** Collaborators *)

Module IOperationParser.
Class t := {
  shouldSkip : OperationObject.t → OperationContext.t → Completion bool;
  name : OperationObject.t → OperationContext.t → Completion string;
  value : OperationObject.t → OperationContext.t → Completion string;
  action : OperationObject.t → OperationContext.t → Completion string;
  description : OperationObject.t → OperationContext.t → Completion string;
}.
End IOperationParser.

Module IResourceParser.
(** [value({name: tag})] *)
Class t := { value : string → Completion string }.
End IResourceParser.

Module N8NINodeProperties.
(** The deriver is the collector's own: its constructor builds it from the
    document, and nothing can be put in its place.  What it throws are
    Error objects, given here by their text. *)
Class t := {
  fromParameters : list JsValue → Outcome string (list INodeProperties.t);
  fromRequestBody : option JsValue → Outcome string (list INodeProperties.t);
}.
End N8NINodeProperties.

Module Utils.
(** [replacePathVarsToParameter] of [./n8n/utils]: the rewriting of path
    placeholders, taken as given. *)
Class t := { replacePathVarsToParameter : string → Completion string }.
End Utils.

(** ** The Resource-Option aggregator *)

Module OptionsByResourceMap.
(** Modelled from the spec: the class [OptionsByResourceMap] of
    [./n8n/OptionsByResourceMap] is not part of the sources.  A mapping
    from resource identifier to the ordered sequence of its options, the
    resources in first-seen order. *)
Definition t := list (string * list INodePropertyOptions.t).

Definition empty : t := [].

(** Modelled from the spec: [add(resource, option)] of the missing class.
    It appends the option to the sequence of that resource and creates the
    sequence on first use; identical options are not deduplicated. *)
Fixpoint add (resource : string) (option : INodePropertyOptions.t) (m : t) : t :=
  match m with
  | [] => [(resource, [option])]
  | (r, options) :: m' =>
      if decide (r = resource)
      then (r, options ++ [option]) :: m'
      else (r, options) :: add resource option m'
  end.

(** Modelled from the spec: the [size] query of the missing class, the
    number of distinct resources. *)
Definition size (m : t) : nat := length m.

(** Modelled from the spec: iteration over the missing class yields the
    (resource, options) pairs in insertion order. *)
Definition entries (m : t) : list (string * list INodePropertyOptions.t) := m.

(** The options registered for a resource; none when it is unknown. *)
Fixpoint get (resource : string) (m : t) : list INodePropertyOptions.t :=
  match m with
  | [] => []
  | (r, options) :: m' =>
      if decide (r = resource) then options else get resource m'
  end.
End OptionsByResourceMap.

(** ** The collector's state *)

Module Bindings.
(** The log context [{operation: {pattern, method, operationId}}]. *)
Record t := {
  pattern : string;
  method : string;
  operationId : option string;
}.
End Bindings.

(** What the pino logger receives. *)
Inductive LogRecord :=
| LogInfo (bindings : option Bindings.t) (msg : string)
| LogWarn (bindings : option Bindings.t) (error : string) (msg : string).

(** A reference to a field object on the heap. *)
Definition loc := nat.

(** The members of a collector, with the field objects its [_fields] array
    refers to and the records its logger has received. *)
Record Collector := {
  _fields : list loc;
  optionsByResource : OptionsByResourceMap.t;
  bindings : option Bindings.t;
  heap : list INodeProperties.t;
  logger : list LogRecord;
}.

(** [new BaseOperationsCollector(doc, operationParser, resourceParser, logger)],
    the logger having received [log] so far. *)
Definition newCollector (log : list LogRecord) : Collector :=
  {| _fields := [];
     optionsByResource := OptionsByResourceMap.empty;
     bindings := None;
     heap := [];
     logger := log |}.

(** Every reference held in [_fields] points to an allocated object. *)
Definition wf (s : Collector) : Prop :=
  Forall (λ l, l < length (heap s)) (_fields s).

(** ** Methods as computations *)

Definition Comp (A : Type) : Type := Collector → Completion A * Collector.

#[global] Instance Comp_ret : MRet Comp := λ A a s, (Normal a, s).

#[global] Instance Comp_bind : MBind Comp := λ A B k m s,
  match m s with
  | (Normal a, s') => k a s'
  | (Throw e, s') => (Throw e, s')
  end.

(** A call to a collaborator. *)
Definition call {A} (c : Completion A) : Comp A := λ s, (c, s).

(** A call to the collector's own deriver. *)
Definition derive {A} (c : Outcome string A) : Comp A := λ s,
  match c with
  | Normal a => (Normal a, s)
  | Throw e => (Throw (Printable e), s)
  end.

(** [x!!.m(...)] where [x] may be undefined: the non-null assertion is
    erased by the compiler, and the member access throws a TypeError. *)
Definition deref {A} (x : option A) (member : string) : Comp A := λ s,
  match x with
  | Some a => (Normal a, s)
  | None =>
      (Throw (Printable ("TypeError: Cannot read properties of undefined (reading '"
                         +:+ member +:+ "')")), s)
  end.

(** [try { m } catch (error) { handler error }] *)
Definition tryCatch {A} (m : Comp A) (handler : JsError → Comp A) : Comp A := λ s,
  match m s with
  | (Normal a, s') => (Normal a, s')
  | (Throw e, s') => handler e s'
  end.

(** [for (const x of l) { body x }] *)
Fixpoint forOf {A} (l : list A) (body : A → Comp unit) : Comp unit :=
  match l with
  | [] => mret tt
  | x :: l' => body x ≫= λ _, forOf l' body
  end.

Definition getBindings : Comp (option Bindings.t) := λ s, (Normal (bindings s), s).

Definition setBindings (b : Bindings.t) : Comp unit := λ s,
  (Normal tt,
   {| _fields := _fields s; optionsByResource := optionsByResource s;
      bindings := Some b; heap := heap s; logger := logger s |}).

Definition log (r : LogRecord) : Comp unit := λ s,
  (Normal tt,
   {| _fields := _fields s; optionsByResource := optionsByResource s;
      bindings := bindings s; heap := heap s; logger := logger s ++ [r] |}).

(** [this.logger.info(this.bindings, msg)] *)
Definition logger_info (msg : string) : Comp unit :=
  b ← getBindings; log (LogInfo b msg).

(** [this.logger.warn({...this.bindings, error: text}, msg)] *)
Definition logger_warn (text : string) (msg : string) : Comp unit :=
  b ← getBindings; log (LogWarn b text msg).

(** A fresh object on the heap. *)
Definition alloc (v : INodeProperties.t) : Comp loc := λ s,
  (Normal (length (heap s)),
   {| _fields := _fields s; optionsByResource := optionsByResource s;
      bindings := bindings s; heap := heap s ++ [v]; logger := logger s |}).

(** [lodash.cloneDeep(fields)]: a new array of new objects. *)
Fixpoint cloneDeep (fields : list INodeProperties.t) : Comp (list loc) :=
  match fields with
  | [] => mret []
  | v :: fields' =>
      l ← alloc v;
      ls ← cloneDeep fields';
      mret (l :: ls)
  end.

(** [field.displayOptions = displayOptions] on the object at [l]. *)
Definition assignDisplayOptions (l : loc) (d : DisplayOptions.t) : Comp unit := λ s,
  (Normal tt,
   {| _fields := _fields s; optionsByResource := optionsByResource s;
      bindings := bindings s;
      heap := alter (INodeProperties.setDisplayOptions d) l (heap s);
      logger := logger s |}).

(** [this.optionsByResource.add(resource, option)] *)
Definition optionsByResource_add (resource : string) (option : INodePropertyOptions.t)
  : Comp unit := λ s,
  (Normal tt,
   {| _fields := _fields s;
      optionsByResource := OptionsByResourceMap.add resource option (optionsByResource s);
      bindings := bindings s; heap := heap s; logger := logger s |}).

(** [this._fields.push(...fields)] *)
Definition fields_push (fields : list loc) : Comp unit := λ s,
  (Normal tt,
   {| _fields := _fields s ++ fields; optionsByResource := optionsByResource s;
      bindings := bindings s; heap := heap s; logger := logger s |}).

(** ** BaseOperationsCollector *)

(** The loop of [parseFields] that sorts the derived fields into the
    required and the optional ones. *)
Definition splitRequired (all : list INodeProperties.t)
  : list INodeProperties.t * list INodeProperties.t :=
  foldl (λ '(required, optional) param,
           if truthy (INodeProperties.required param)
           then (required ++ [param], optional)
           else (required, optional ++ [param]))
        ([], []) all.

Definition additionalFieldsOption (optionalParameters : list INodeProperties.t)
  : INodeProperties.t :=
  {| INodeProperties.displayName := "Additional Query Parameters";
     INodeProperties.name := "additionalQueryParameters";
     INodeProperties.type := "collection";
     INodeProperties.required := None;
     INodeProperties.default := JsObject [];
     INodeProperties.placeholder := Some "Add Field";
     INodeProperties.description := Some "Optional query parameters that can be added";
     INodeProperties.noDataExpression := None;
     INodeProperties.typeOptions := None;
     INodeProperties.routing := None;
     INodeProperties.options := Some (inr <$> optionalParameters);
     INodeProperties.displayOptions := None |}.

Definition additionalBodyFieldsOption (optionalBodyFields : list INodeProperties.t)
  : INodeProperties.t :=
  {| INodeProperties.displayName := "Additional Body Fields";
     INodeProperties.name := "additionalBodyFields";
     INodeProperties.type := "collection";
     INodeProperties.required := None;
     INodeProperties.default := JsObject [];
     INodeProperties.placeholder := Some "Add Field";
     INodeProperties.description := Some "Optional body fields that can be added";
     INodeProperties.noDataExpression := None;
     INodeProperties.typeOptions := None;
     INodeProperties.routing := None;
     INodeProperties.options := Some (inr <$> optionalBodyFields);
     INodeProperties.displayOptions := None |}.

Definition msg : string :=
  "There's no body available for request, kindly use HTTP Request node to send body".

(** The notice that [parseFields] pushes when the request body fails. *)
Definition bodyNotice (context : OperationContext.t) : INodeProperties.t :=
  {| INodeProperties.displayName :=
       toUpperCase (OperationContext.method context) +:+ " "
       +:+ OperationContext.pattern context +:+ "<br/><br/>" +:+ msg;
     INodeProperties.name := "operation";
     INodeProperties.type := "notice";
     INodeProperties.required := None;
     INodeProperties.default := JsString "";
     INodeProperties.placeholder := None;
     INodeProperties.description := None;
     INodeProperties.noDataExpression := None;
     INodeProperties.typeOptions := None;
     INodeProperties.routing := None;
     INodeProperties.options := None;
     INodeProperties.displayOptions := None |}.

(** The notice that [OperationsCollector.parseOperation] puts in front. *)
Definition operationNotice (context : OperationContext.t) : INodeProperties.t :=
  {| INodeProperties.displayName :=
       toUpperCase (OperationContext.method context) +:+ " "
       +:+ OperationContext.pattern context;
     INodeProperties.name := "operation";
     INodeProperties.type := "notice";
     INodeProperties.required := None;
     INodeProperties.default := JsString "";
     INodeProperties.placeholder := None;
     INodeProperties.description := None;
     INodeProperties.noDataExpression := None;
     INodeProperties.typeOptions := Some (JsObject [("theme", JsString "info")]);
     INodeProperties.routing := None;
     INodeProperties.options := None;
     INodeProperties.displayOptions := None |}.

(** One entry of the [operations] getter. *)
Definition operationSelector (resource : string) (options : list INodePropertyOptions.t)
  : INodeProperties.t :=
  {| INodeProperties.displayName := "Operation";
     INodeProperties.name := "operation";
     INodeProperties.type := "options";
     INodeProperties.required := None;
     INodeProperties.default := JsString "";
     INodeProperties.placeholder := None;
     INodeProperties.description := None;
     INodeProperties.noDataExpression := Some true;
     INodeProperties.typeOptions := None;
     INodeProperties.routing := None;
     INodeProperties.options := Some (inl <$> options);
     INodeProperties.displayOptions :=
       Some {| DisplayOptions.resource := [resource];
               DisplayOptions.operation := None |} |}.

(** [get operations()] *)
Definition operations (s : Collector) : Completion (list INodeProperties.t) :=
  if decide (OptionsByResourceMap.size (optionsByResource s) = 0)
  then Throw (Printable "Error: No operations found in OpenAPI document")
  else Normal (foldl (λ operations '(resource, options),
                        operations ++ [operationSelector resource options])
                     [] (OptionsByResourceMap.entries (optionsByResource s))).

(** [get fields()]: a copy of the array of references. *)
Definition fields (s : Collector) : list loc := _fields s.

(** The objects that an array of references shows. *)
Definition objects (s : Collector) (refs : list loc) : list INodeProperties.t :=
  omap (λ l, heap s !! l) refs.

(** [addDisplayOption(fields, resource, operation)] *)
Definition addDisplayOption (fields : list loc) (resource operation : string) : Comp unit :=
  let displayOptions :=
    {| DisplayOptions.resource := [resource];
       DisplayOptions.operation := Some [operation] |} in
  forOf fields (λ field, assignDisplayOptions field displayOptions).

(** The two classes of the file; [parseOperation] is the overridden method. *)
Inductive CollectorClass := BaseOperationsCollector | OperationsCollector.

Section Collector.
Context {operationParser : IOperationParser.t}
        {resourceParser : IResourceParser.t}
        {n8nNodeProperties : N8NINodeProperties.t}
        {utils : Utils.t}.

(** [parseFields(operation, context)].  Inside the [try] only the call of
    [fromRequestBody] can throw, and it comes before any [push].  The
    handler evaluates [`${error}`] before it logs. *)
Definition parseFields (operation : OperationObject.t) (context : OperationContext.t)
  : Comp (list INodeProperties.t) :=
  let fields := [] in
  fields ←
    match OperationObject.parameters operation with
    | Some parameters =>
        allParameters ← derive (N8NINodeProperties.fromParameters parameters);
        let '(requiredParameters, optionalParameters) := splitRequired allParameters in
        let fields := fields ++ requiredParameters in
        if (0 <? length optionalParameters)%nat
        then mret (fields ++ [additionalFieldsOption optionalParameters])
        else mret fields
    | None => mret fields
    end;
  tryCatch
    (bodyFields ← derive (N8NINodeProperties.fromRequestBody
                            (OperationObject.requestBody operation));
     if (0 <? length bodyFields)%nat then
       let '(requiredBodyFields, optionalBodyFields) := splitRequired bodyFields in
       let fields := fields ++ requiredBodyFields in
       if (0 <? length optionalBodyFields)%nat
       then mret (fields ++ [additionalBodyFieldsOption optionalBodyFields])
       else mret fields
     else mret fields)
    (λ error,
       text ← call (toText error);
       logger_warn text "Failed to parse request body";;
       mret (fields ++ [bodyNotice context])).

(** [BaseOperationsCollector.parseOperation] *)
Definition BaseOperationsCollector_parseOperation
    (operation : OperationObject.t) (context : OperationContext.t)
  : Comp (INodePropertyOptions.t * list INodeProperties.t) :=
  let method := OperationContext.method context in
  let uri := OperationContext.pattern context in
  name ← call (IOperationParser.name operation context);
  value ← call (IOperationParser.value operation context);
  action ← call (IOperationParser.action operation context);
  description ← call (IOperationParser.description operation context);
  url ← call (Utils.replacePathVarsToParameter uri);
  let option :=
    {| INodePropertyOptions.name := name;
       INodePropertyOptions.value := value;
       INodePropertyOptions.action := action;
       INodePropertyOptions.description := description;
       INodePropertyOptions.routing :=
         {| Routing.method := toUpperCase method;
            Routing.url := "=" +:+ url |} |} in
  fields ← parseFields operation context;
  mret (option, fields).

(** [OperationsCollector.parseOperation], the override of the subclass. *)
Definition OperationsCollector_parseOperation
    (operation : OperationObject.t) (context : OperationContext.t)
  : Comp (INodePropertyOptions.t * list INodeProperties.t) :=
  result ← BaseOperationsCollector_parseOperation operation context;
  let notice := operationNotice context in
  mret (result.1, notice :: result.2).

(** [this.parseOperation(operation, context)] *)
Definition parseOperation (this : CollectorClass) :=
  match this with
  | BaseOperationsCollector => BaseOperationsCollector_parseOperation
  | OperationsCollector => OperationsCollector_parseOperation
  end.

(** [_visitOperation(operation, context)] *)
Definition _visitOperation (this : CollectorClass)
    (operation : OperationObject.t) (context : OperationContext.t) : Comp unit :=
  skip ← call (IOperationParser.shouldSkip operation context);
  if (skip : bool) then logger_info "Skipping operation"
  else
    parsed ← parseOperation this operation context;
    let option := parsed.1 in
    let operationFields := parsed.2 in
    tags ← deref (OperationObject.tags operation) "map";
    resources ← call (mapC IResourceParser.value tags);
    forOf resources (λ resourceName,
      fields ← cloneDeep operationFields;
      let operationName := INodePropertyOptions.name option in
      addDisplayOption fields resourceName operationName;;
      optionsByResource_add resourceName option;;
      fields_push fields).

(** [visitOperation(operation, context)].  The handler evaluates
    [`${error}`] before it logs, outside of any [try]. *)
Definition visitOperation (this : CollectorClass)
    (operation : OperationObject.t) (context : OperationContext.t) : Comp unit :=
  let bindings :=
    {| Bindings.pattern := OperationContext.pattern context;
       Bindings.method := OperationContext.method context;
       Bindings.operationId := OperationObject.operationId operation |} in
  setBindings bindings;;
  tryCatch (_visitOperation this operation context)
           (λ error,
              text ← call (toText error);
              logger_warn text "Failed to parse operation").

(** The traversal of a document: the visitor is called once per operation,
    in document order; a visit that throws ends it. *)
Definition walk (this : CollectorClass)
    (visits : list (OperationObject.t * OperationContext.t)) : Comp unit :=
  forOf visits (λ v, visitOperation this v.1 v.2).

End Collector.

(** ** A small document to run the collector on *)

Module Petstore.

(** An operation parser that names an operation by its summary and
    identifies it by its operationId; it skips deprecated operations and
    rejects an operation without summary. *)
#[export] Instance operationParser : IOperationParser.t :=
  {| IOperationParser.shouldSkip operation _ :=
       Normal (truthy (OperationObject.deprecated operation));
     IOperationParser.name operation _ :=
       match OperationObject.summary operation with
       | Some s => Normal s
       | None => Throw (Printable "Error: operation without summary")
       end;
     IOperationParser.value operation context :=
       match OperationObject.operationId operation with
       | Some id => Normal id
       | None =>
           Normal (toUpperCase (OperationContext.method context) +:+ " "
                   +:+ OperationContext.pattern context)
       end;
     IOperationParser.action operation _ :=
       Normal (default "" (OperationObject.summary operation));
     IOperationParser.description operation _ :=
       Normal (default "" (OperationObject.description operation)) |}.

#[export] Instance resourceParser : IResourceParser.t :=
  {| IResourceParser.value tag := Normal tag |}.

Fixpoint property (key : string) (l : list (string * JsValue)) : option JsValue :=
  match l with
  | [] => None
  | (k, v) :: l' => if decide (k = key) then Some v else property key l'
  end.

(** A string field of the given name. *)
Definition textField (n : string) (required : option bool) : INodeProperties.t :=
  {| INodeProperties.displayName := n;
     INodeProperties.name := n;
     INodeProperties.type := "string";
     INodeProperties.required := required;
     INodeProperties.default := JsString "";
     INodeProperties.placeholder := None;
     INodeProperties.description := None;
     INodeProperties.noDataExpression := None;
     INodeProperties.typeOptions := None;
     INodeProperties.routing := None;
     INodeProperties.options := None;
     INodeProperties.displayOptions := None |}.

(** The field derived from a [{name, required}] object. *)
Definition stringField (p : JsValue) : Outcome string INodeProperties.t :=
  match p with
  | JsObject l =>
      match property "name" l with
      | Some (JsString n) =>
          Normal (textField n match property "required" l with
                              | Some (JsBool b) => Some b
                              | _ => None
                              end)
      | _ => Throw "Error: no name"
      end
  | _ => Throw "Error: not an object"
  end.

#[export] Instance n8nNodeProperties : N8NINodeProperties.t :=
  {| N8NINodeProperties.fromParameters parameters := mapC stringField parameters;
     N8NINodeProperties.fromRequestBody requestBody :=
       match requestBody with
       | None => Normal []
       | Some (JsArray l) => mapC stringField l
       | Some _ => Throw "Error: unsupported request body"
       end |}.

(** The patterns below have no placeholders and stay as they are. *)
#[export] Instance utils : Utils.t :=
  {| Utils.replacePathVarsToParameter uri := Normal uri |}.

Definition param (n : string) (required : bool) : JsValue :=
  JsObject [("name", JsString n); ("required", JsBool required)].

Definition postPets : OperationContext.t :=
  {| OperationContext.pattern := "/pets"; OperationContext.method := "post" |}.

(** [POST /pets] tagged [pet], a required parameter [name], an optional
    parameter [limit], no request body. *)
Definition createPet : OperationObject.t :=
  {| OperationObject.tags := Some ["pet"];
     OperationObject.summary := Some "Create Pet";
     OperationObject.description := None;
     OperationObject.operationId := Some "createPet";
     OperationObject.parameters := Some [param "name" true; param "limit" false];
     OperationObject.requestBody := None;
     OperationObject.deprecated := None |}.

Definition withTags (tags : option (list string)) (o : OperationObject.t)
  : OperationObject.t :=
  {| OperationObject.tags := tags;
     OperationObject.summary := OperationObject.summary o;
     OperationObject.description := OperationObject.description o;
     OperationObject.operationId := OperationObject.operationId o;
     OperationObject.parameters := OperationObject.parameters o;
     OperationObject.requestBody := OperationObject.requestBody o;
     OperationObject.deprecated := OperationObject.deprecated o |}.

Definition withRequestBody (body : option JsValue) (o : OperationObject.t)
  : OperationObject.t :=
  {| OperationObject.tags := OperationObject.tags o;
     OperationObject.summary := OperationObject.summary o;
     OperationObject.description := OperationObject.description o;
     OperationObject.operationId := OperationObject.operationId o;
     OperationObject.parameters := OperationObject.parameters o;
     OperationObject.requestBody := body;
     OperationObject.deprecated := OperationObject.deprecated o |}.

(** The same operation with a request body that cannot be derived. *)
Definition createPetMalformed : OperationObject.t :=
  withRequestBody (Some (JsString "?")) createPet.

(** ... with a body of one required and one optional field. *)
Definition createPetWithBody : OperationObject.t :=
  withRequestBody (Some (JsArray [param "kind" true; param "age" false])) createPet.

(** ... tagged with two resources. *)
Definition createPetTwice : OperationObject.t :=
  withTags (Some ["pet"; "store"]) createPet.

(** ... without a tag list. *)
Definition createPetUntagged : OperationObject.t := withTags None createPet.

(** An operation that the namer rejects. *)
Definition unnamed : OperationObject.t :=
  {| OperationObject.tags := Some ["pet"];
     OperationObject.summary := None;
     OperationObject.description := None;
     OperationObject.operationId := Some "unnamed";
     OperationObject.parameters := None;
     OperationObject.requestBody := None;
     OperationObject.deprecated := None |}.

(** A deprecated operation, which the skip policy drops. *)
Definition retired : OperationObject.t :=
  {| OperationObject.tags := Some ["pet"];
     OperationObject.summary := Some "Retired";
     OperationObject.description := None;
     OperationObject.operationId := Some "retired";
     OperationObject.parameters := None;
     OperationObject.requestBody := None;
     OperationObject.deprecated := Some true |}.

(** What [parseOperation] of the base class gives for [createPet]. *)
Definition createPetOption : INodePropertyOptions.t :=
  {| INodePropertyOptions.name := "Create Pet";
     INodePropertyOptions.value := "createPet";
     INodePropertyOptions.action := "Create Pet";
     INodePropertyOptions.description := "";
     INodePropertyOptions.routing :=
       {| Routing.method := "POST"; Routing.url := "=/pets" |} |}.

Definition createPetFields : list INodeProperties.t :=
  [textField "name" (Some true);
   additionalFieldsOption [textField "limit" (Some false)]].

End Petstore.

(** ** What a computation may depend on and write to *)

(** The part of the state behind the two outputs: the [_fields] array, the
    objects it refers to and the aggregator.  The log context and the logger
    are not part of it. *)
Definition observable (s : Collector)
  : list loc * OptionsByResourceMap.t * list INodeProperties.t :=
  (_fields s, optionsByResource s, heap s).

(** A computation is blind when neither its completion nor the observable
    state it leaves depends on the log context or on what was logged. *)
Definition blind {A} (m : Comp A) : Prop :=
  ∀ s1 s2, observable s1 = observable s2 →
    (m s1).1 = (m s2).1 ∧ observable (m s1).2 = observable (m s2).2.

(** A computation is silent when it writes to the logger at most. *)
Definition silent {A} (m : Comp A) : Prop :=
  ∀ s, observable (m s).2 = observable s ∧ bindings (m s).2 = bindings s.

(** The parameter fields derived for an operation; [parseFields] derives
    none when the operation has no parameter list. *)
Definition parameterFields `{N8NINodeProperties.t} (operation : OperationObject.t)
  : Outcome string (list INodeProperties.t) :=
  match OperationObject.parameters operation with
  | Some parameters => N8NINodeProperties.fromParameters parameters
  | None => Normal []
  end.

Definition isRequired (field : INodeProperties.t) : bool :=
  truthy (INodeProperties.required field).

(** The visibility condition of a field of [operation] under [resource]. *)
Definition shown (resource operation : string) : DisplayOptions.t :=
  {| DisplayOptions.resource := [resource];
     DisplayOptions.operation := Some [operation] |}.

(** The state after the loop body of [_visitOperation] has run for one
    resource. *)
Definition registered (option : INodePropertyOptions.t)
    (operationFields : list INodeProperties.t) (s : Collector) (resource : string)
  : Collector :=
  {| _fields := _fields s ++ seq (length (heap s)) (length operationFields);
     optionsByResource := OptionsByResourceMap.add resource option (optionsByResource s);
     bindings := bindings s;
     heap := heap s ++
             (INodeProperties.setDisplayOptions
                (shown resource (INodePropertyOptions.name option)) <$> operationFields);
     logger := logger s |}.

Create HintDb collector.

Ltac run_comp :=
  unfold mbind, Comp_bind, mret, Comp_ret, call, derive, deref, tryCatch,
    logger_info, logger_warn, getBindings, setBindings, log,
    optionsByResource_add, fields_push in *; simpl in *.

(** The log context that a record carries. *)
Definition recordBindings (r : LogRecord) : option Bindings.t :=
  match r with
  | LogInfo b _ => b
  | LogWarn b _ _ => b
  end.

(** The objects of a heap after [field.displayOptions = d] has run for
    every reference of [refs], in order. *)
Definition assignedAll (d : DisplayOptions.t) (refs : list loc)
    (h : list INodeProperties.t) : list INodeProperties.t :=
  foldl (λ h l, alter (INodeProperties.setDisplayOptions d) l h) h refs.

(** The option that [parseOperation] builds, when every derivation that
    comes before its [return] returns. *)
Definition derivedOption `{IOperationParser.t, N8NINodeProperties.t, Utils.t}
    (operation : OperationObject.t) (context : OperationContext.t)
  : Completion INodePropertyOptions.t :=
  match IOperationParser.name operation context with
  | Throw e => Throw e
  | Normal name =>
  match IOperationParser.value operation context with
  | Throw e => Throw e
  | Normal value =>
  match IOperationParser.action operation context with
  | Throw e => Throw e
  | Normal action =>
  match IOperationParser.description operation context with
  | Throw e => Throw e
  | Normal description =>
  match Utils.replacePathVarsToParameter (OperationContext.pattern context) with
  | Throw e => Throw e
  | Normal url =>
  match parameterFields operation with
  | Throw e => Throw (Printable e)
  | Normal _ =>
      Normal {| INodePropertyOptions.name := name;
                INodePropertyOptions.value := value;
                INodePropertyOptions.action := action;
                INodePropertyOptions.description := description;
                INodePropertyOptions.routing :=
                  {| Routing.method := toUpperCase (OperationContext.method context);
                     Routing.url := "=" +:+ url |} |}
  end end end end end end.

(** The aggregator after the visit of one operation, from the aggregator
    before it: the option is added under every resource of the operation
    when the operation is not skipped and everything is derived, and nothing
    is added otherwise. *)
Definition nextOptions
    `{IOperationParser.t, IResourceParser.t, N8NINodeProperties.t, Utils.t}
    (operation : OperationObject.t) (context : OperationContext.t)
    (m : OptionsByResourceMap.t) : OptionsByResourceMap.t :=
  match IOperationParser.shouldSkip operation context,
        derivedOption operation context,
        OperationObject.tags operation with
  | Normal false, Normal option, Some tags =>
      match mapC IResourceParser.value tags with
      | Normal resources =>
          foldl (λ m r, OptionsByResourceMap.add r option m) m resources
      | Throw _ => m
      end
  | _, _, _ => m
  end.

(** The [_fields] array refers to every allocated object, once, in the
    order of allocation. *)
Definition tight (s : Collector) : Prop :=
  _fields s = seq 0 (length (heap s)).

(** Every field object is shown for a resource and the name of an option
    that the aggregator holds under that resource. *)
Definition backed (s : Collector) : Prop :=
  Forall (λ field,
            ∃ resource option,
              INodeProperties.displayOptions field
              = Some (shown resource (INodePropertyOptions.name option))
              ∧ option ∈ OptionsByResourceMap.get resource (optionsByResource s))
         (heap s).

(** ** Operations at the edges of the Petstore document *)

Module PetstoreEdges.

(** A resource parser that rejects the empty tag. *)
Definition strictResourceParser : IResourceParser.t :=
  {| IResourceParser.value tag :=
       if decide (tag = "") then Throw (Printable "Error: empty tag") else Normal tag |}.

(** An operation parser like the one of the Petstore, which throws a
    Symbol, not an Error, for an operation without summary. *)
Definition symbolThrowingParser : IOperationParser.t :=
  {| IOperationParser.shouldSkip operation _ :=
       Normal (truthy (OperationObject.deprecated operation));
     IOperationParser.name operation _ :=
       match OperationObject.summary operation with
       | Some s => Normal s
       | None => Throw aSymbol
       end;
     IOperationParser.value operation context :=
       IOperationParser.value (t := Petstore.operationParser) operation context;
     IOperationParser.action operation context :=
       IOperationParser.action (t := Petstore.operationParser) operation context;
     IOperationParser.description operation context :=
       IOperationParser.description (t := Petstore.operationParser) operation context |}.

(** [createPet] with an empty tag list. *)
Definition createPetNowhere : OperationObject.t :=
  Petstore.withTags (Some []) Petstore.createPet.

(** [createPet] with a good tag followed by an empty one. *)
Definition createPetBadTag : OperationObject.t :=
  Petstore.withTags (Some ["pet"; ""]) Petstore.createPet.


(** An operation whose parameter list holds something that is no
    parameter object. *)
Definition brokenParameters : OperationObject.t :=
  {| OperationObject.tags := Some ["pet"];
     OperationObject.summary := Some "Broken";
     OperationObject.description := None;
     OperationObject.operationId := Some "broken";
     OperationObject.parameters := Some [JsNull];
     OperationObject.requestBody := Some (JsString "?");
     OperationObject.deprecated := None |}.

End PetstoreEdges.

(** * Properties *)

(** ** Completions and the monad *)

Lemma bind_normal {A B} (m : Comp A) (k : A → Comp B) s a s' :
  m s = (Normal a, s') → (m ≫= k) s = k a s'.
Proof. intros E. unfold mbind, Comp_bind. by rewrite E. Qed.

Lemma bind_throw {A B} (m : Comp A) (k : A → Comp B) s e s' :
  m s = (Throw e, s') → (m ≫= k) s = (Throw e, s').
Proof. intros E. unfold mbind, Comp_bind. by rewrite E. Qed.

Lemma mapC_length {A B} (f : A → Completion B) l ys :
  mapC f l = Normal ys → length ys = length l.
Proof.
  revert ys. induction l as [|x l IH]; intros ys; simpl.
  - by intros [= <-].
  - destruct (f x); [|done]. destruct (mapC f l); [|done].
    intros [= <-]. simpl. f_equal. by apply IH.
Qed.

(** ** The two partitions of [parseFields] *)

Lemma splitRequired_acc (all required optional : list INodeProperties.t) :
  foldl (λ '(required, optional) param,
           if truthy (INodeProperties.required param)
           then (required ++ [param], optional)
           else (required, optional ++ [param]))
        (required, optional) all
  = (required ++ List.filter isRequired all,
     optional ++ List.filter (λ p, negb (isRequired p)) all).
Proof.
  revert required optional.
  induction all as [|p all IH]; intros required optional; simpl.
  - by rewrite !app_nil_r.
  - unfold isRequired in *.
    destruct (truthy (INodeProperties.required p)); simpl;
      rewrite IH; by rewrite <- ?app_assoc.
Qed.

Lemma splitRequired_filter (all : list INodeProperties.t) :
  splitRequired all
  = (List.filter isRequired all, List.filter (λ p, negb (isRequired p)) all).
Proof. unfold splitRequired. by rewrite splitRequired_acc. Qed.

Lemma filter_partition_Permutation {A} (f : A → bool) (l : list A) :
  List.filter f l ++ List.filter (λ x, negb (f x)) l ≡ₚ l.
Proof.
  induction l as [|x l IH]; simpl; [done|].
  destruct (f x); simpl.
  - by rewrite IH.
  - rewrite <- Permutation_middle. by rewrite IH.
Qed.

(** ** The aggregator *)

Lemma get_add (r resource : string) option (m : OptionsByResourceMap.t) :
  OptionsByResourceMap.get r (OptionsByResourceMap.add resource option m)
  = OptionsByResourceMap.get r m ++ (if decide (resource = r) then [option] else []).
Proof.
  induction m as [|[k options] m IH]; simpl.
  - destruct (decide (resource = r)); simpl; by rewrite ?app_nil_r.
  - destruct (decide (k = resource)) as [->|Hk]; simpl.
    + destruct (decide (resource = r)); simpl; by rewrite ?app_nil_r.
    + destruct (decide (k = r)) as [->|Hr]; simpl.
      * destruct (decide (resource = r)); [congruence|]. by rewrite app_nil_r.
      * apply IH.
Qed.

Lemma add_keys (resource : string) option (m : OptionsByResourceMap.t) :
  (OptionsByResourceMap.add resource option m).*1
  = if decide (resource ∈ m.*1) then m.*1 else m.*1 ++ [resource].
Proof.
  induction m as [|[k options] m IH]; csimpl.
  - destruct (decide (resource ∈ [])) as [H|H]; [by apply elem_of_nil in H|done].
  - destruct (decide (k = resource)) as [->|Hk]; csimpl.
    + rewrite decide_True; [done|left].
    + rewrite IH.
      destruct (decide (resource ∈ m.*1)) as [H|H].
      * rewrite decide_True; [done|by right].
      * rewrite decide_False; [done|].
        intros [->|?]%elem_of_cons; done.
Qed.

Lemma operations_loop (entries : list (string * list INodePropertyOptions.t))
    (acc : list INodeProperties.t) :
  foldl (λ operations '(resource, options),
           operations ++ [operationSelector resource options]) acc entries
  = acc ++ ((λ entry, operationSelector entry.1 entry.2) <$> entries).
Proof.
  revert acc. induction entries as [|[resource options] entries IH]; intros acc; simpl.
  - by rewrite app_nil_r.
  - rewrite IH. by rewrite <- app_assoc.
Qed.

(** ** The heap: cloning and tagging *)

Lemma cloneDeep_spec (fs : list INodeProperties.t) (s : Collector) :
  cloneDeep fs s
  = (Normal (seq (length (heap s)) (length fs)),
     {| _fields := _fields s; optionsByResource := optionsByResource s;
        bindings := bindings s; heap := heap s ++ fs; logger := logger s |}).
Proof.
  revert s. induction fs as [|v fs IH]; intros s; simpl.
  - unfold mret, Comp_ret. destruct s; simpl. by rewrite app_nil_r.
  - unfold mbind, Comp_bind, alloc. rewrite IH. simpl.
    unfold mret, Comp_ret. rewrite length_app. simpl.
    rewrite Nat.add_1_r, <- app_assoc. done.
Qed.

Lemma addDisplayOption_spec (d : DisplayOptions.t) (fs h : list INodeProperties.t)
    (s : Collector) :
  heap s = h ++ fs →
  forOf (seq (length h) (length fs)) (λ field, assignDisplayOptions field d) s
  = (Normal tt,
     {| _fields := _fields s; optionsByResource := optionsByResource s;
        bindings := bindings s;
        heap := h ++ (INodeProperties.setDisplayOptions d <$> fs);
        logger := logger s |}).
Proof.
  revert h s. induction fs as [|v fs IH]; intros h s Hh; simpl.
  - unfold mret, Comp_ret. destruct s; simpl in *. by rewrite Hh.
  - unfold mbind, Comp_bind, assignDisplayOptions at 1. simpl.
    specialize (IH (h ++ [INodeProperties.setDisplayOptions d v])).
    rewrite length_app, Nat.add_1_r in IH. rewrite IH.
    + simpl. by rewrite <- app_assoc.
    + simpl. rewrite Hh.
      replace (length h) with (length h + 0) by lia.
      rewrite alter_app_r. simpl. by rewrite <- app_assoc.
Qed.

Lemma loop_body_spec (option : INodePropertyOptions.t)
    (operationFields : list INodeProperties.t) (resourceName : string) (s : Collector) :
  (fields ← cloneDeep operationFields;
   let operationName := INodePropertyOptions.name option in
   addDisplayOption fields resourceName operationName;;
   optionsByResource_add resourceName option;;
   fields_push fields) s
  = (Normal tt, registered option operationFields s resourceName).
Proof.
  unfold mbind at 1, Comp_bind at 1. rewrite cloneDeep_spec. simpl.
  unfold mbind at 1, Comp_bind at 1. unfold addDisplayOption.
  erewrite addDisplayOption_spec by reflexivity.
  by simpl.
Qed.

Lemma visit_loop_spec (option : INodePropertyOptions.t)
    (operationFields : list INodeProperties.t) (resources : list string) (s : Collector) :
  forOf resources (λ resourceName,
    fields ← cloneDeep operationFields;
    let operationName := INodePropertyOptions.name option in
    addDisplayOption fields resourceName operationName;;
    optionsByResource_add resourceName option;;
    fields_push fields) s
  = (Normal tt, foldl (registered option operationFields) s resources).
Proof.
  revert s. induction resources as [|r resources IH]; intros s; simpl; [done|].
  unfold mbind at 1, Comp_bind at 1. rewrite loop_body_spec. apply IH.
Qed.

Lemma registered_options option fs (resources : list string) (s : Collector) :
  optionsByResource (foldl (registered option fs) s resources)
  = foldl (λ m r, OptionsByResourceMap.add r option m) (optionsByResource s) resources.
Proof.
  revert s. induction resources as [|r resources IH]; intros s; simpl; [done|].
  by rewrite IH.
Qed.

Lemma registered_heap option fs (resources : list string) (s : Collector) :
  heap (foldl (registered option fs) s resources)
  = heap s ++
    (resources ≫= λ r,
       INodeProperties.setDisplayOptions (shown r (INodePropertyOptions.name option))
       <$> fs).
Proof.
  revert s. induction resources as [|r resources IH]; intros s; csimpl.
  - by rewrite app_nil_r.
  - rewrite IH. simpl. by rewrite <- app_assoc.
Qed.

Lemma registered_fields option fs (resources : list string) (s : Collector) :
  _fields (foldl (registered option fs) s resources)
  = _fields s ++ seq (length (heap s)) (length resources * length fs).
Proof.
  revert s. induction resources as [|r resources IH]; intros s; simpl.
  - by rewrite app_nil_r.
  - rewrite IH. simpl. rewrite length_app, length_fmap, <- app_assoc.
    by rewrite <- seq_app.
Qed.

Lemma registered_bindings option fs (resources : list string) (s : Collector) :
  bindings (foldl (registered option fs) s resources) = bindings s.
Proof.
  revert s. induction resources as [|r resources IH]; intros s; simpl; [done|].
  by rewrite IH.
Qed.

Lemma registered_logger option fs (resources : list string) (s : Collector) :
  logger (foldl (registered option fs) s resources) = logger s.
Proof.
  revert s. induction resources as [|r resources IH]; intros s; simpl; [done|].
  by rewrite IH.
Qed.

Lemma get_foldl_add (r : string) option (resources : list string)
    (m : OptionsByResourceMap.t) :
  OptionsByResourceMap.get r
    (foldl (λ m r', OptionsByResourceMap.add r' option m) m resources)
  = OptionsByResourceMap.get r m
    ++ replicate (length (filter (λ r', r' = r) resources)) option.
Proof.
  revert m. induction resources as [|r' resources IH]; intros m; simpl.
  - by rewrite app_nil_r.
  - rewrite IH, get_add, filter_cons.
    destruct (decide (r' = r)); simpl; by rewrite <- app_assoc.
Qed.

Lemma objects_fresh (h new : list INodeProperties.t) :
  omap (λ l, (h ++ new) !! l) (seq (length h) (length new)) = new.
Proof.
  revert h. induction new as [|v new IH]; intros h; simpl; [done|].
  rewrite list_lookup_middle by done. f_equal.
  specialize (IH (h ++ [v])).
  rewrite length_app, Nat.add_1_r, <- app_assoc in IH. apply IH.
Qed.

Lemma objects_old (h new : list INodeProperties.t) (refs : list loc) :
  Forall (λ l, l < length h) refs →
  omap (λ l, (h ++ new) !! l) refs = omap (λ l, h !! l) refs.
Proof.
  induction 1 as [|l refs Hl _ IH]; csimpl; [done|].
  rewrite lookup_app_l by done. by rewrite IH.
Qed.

(** ** Blind and silent computations *)

Ltac observe :=
  unfold blind, silent, observable, alloc, assignDisplayOptions; intros;
  run_comp; simplify_eq/=; first [done | split; congruence | idtac].

Lemma blind_ret {A} (a : A) : blind (mret a : Comp A).
Proof. by observe. Qed.

Lemma blind_bind {A B} (m : Comp A) (k : A → Comp B) :
  blind m → (∀ a, blind (k a)) → blind (m ≫= k).
Proof.
  intros Hm Hk s1 s2 Hs. destruct (Hm s1 s2 Hs) as [E1 E2].
  unfold mbind, Comp_bind.
  destruct (m s1) as [[a1|e1] s1'], (m s2) as [[a2|e2] s2'];
    simpl in E1, E2; try discriminate.
  - injection E1 as ->. by apply Hk.
  - injection E1 as ->. exact (conj eq_refl E2).
Qed.

Lemma blind_call {A} (c : Completion A) : blind (call c).
Proof. by observe. Qed.

Lemma blind_derive {A} (c : Outcome string A) : blind (derive c).
Proof. destruct c; by observe. Qed.

Lemma blind_deref {A} (x : option A) member : blind (deref x member).
Proof. unfold deref. destruct x; by observe. Qed.

Lemma blind_tryCatch {A} (m : Comp A) (handler : JsError → Comp A) :
  blind m → (∀ e, blind (handler e)) → blind (tryCatch m handler).
Proof.
  intros Hm Hh s1 s2 Hs. destruct (Hm s1 s2 Hs) as [E1 E2].
  unfold tryCatch.
  destruct (m s1) as [[a1|e1] s1'], (m s2) as [[a2|e2] s2'];
    simpl in E1, E2; try discriminate.
  - exact (conj E1 E2).
  - injection E1 as ->. by apply Hh.
Qed.

Lemma blind_forOf {A} (l : list A) (body : A → Comp unit) :
  (∀ x, blind (body x)) → blind (forOf l body).
Proof.
  intros Hb. induction l as [|x l IH]; simpl.
  - apply blind_ret.
  - apply blind_bind; [apply Hb|by intros _].
Qed.

Lemma blind_setBindings b : blind (setBindings b).
Proof. by observe. Qed.

Lemma blind_logger_info msg : blind (logger_info msg).
Proof. by observe. Qed.

Lemma blind_logger_warn error msg : blind (logger_warn error msg).
Proof. by observe. Qed.

Lemma blind_alloc v : blind (alloc v).
Proof. by observe. Qed.

Lemma blind_cloneDeep fs : blind (cloneDeep fs).
Proof.
  induction fs as [|v fs IH]; simpl.
  - apply blind_ret.
  - apply blind_bind; [apply blind_alloc|intros l].
    apply blind_bind; [apply IH|intros ls]. apply blind_ret.
Qed.

Lemma blind_assignDisplayOptions l d : blind (assignDisplayOptions l d).
Proof. by observe. Qed.

Lemma blind_addDisplayOption refs resource operation :
  blind (addDisplayOption refs resource operation).
Proof. apply blind_forOf. intros l. apply blind_assignDisplayOptions. Qed.

Lemma blind_optionsByResource_add resource option :
  blind (optionsByResource_add resource option).
Proof. by observe. Qed.

Lemma blind_fields_push refs : blind (fields_push refs).
Proof. by observe. Qed.

Lemma silent_ret {A} (a : A) : silent (mret a : Comp A).
Proof. by observe. Qed.

Lemma silent_bind {A B} (m : Comp A) (k : A → Comp B) :
  silent m → (∀ a, silent (k a)) → silent (m ≫= k).
Proof.
  intros Hm Hk s. destruct (Hm s) as [Ho Hb]. unfold mbind, Comp_bind.
  destruct (m s) as [[a|e] s']; simpl in *; [|done].
  destruct (Hk a s') as [Ho' Hb']. split; congruence.
Qed.

Lemma silent_call {A} (c : Completion A) : silent (call c).
Proof. by observe. Qed.

Lemma silent_derive {A} (c : Outcome string A) : silent (derive c).
Proof. destruct c; by observe. Qed.

Lemma silent_tryCatch {A} (m : Comp A) (handler : JsError → Comp A) :
  silent m → (∀ e, silent (handler e)) → silent (tryCatch m handler).
Proof.
  intros Hm Hh s. destruct (Hm s) as [Ho Hb]. unfold tryCatch.
  destruct (m s) as [[a|e] s']; simpl in *; [done|].
  destruct (Hh e s') as [Ho' Hb']. split; congruence.
Qed.

Lemma silent_logger_info msg : silent (logger_info msg).
Proof. by observe. Qed.

Lemma silent_logger_warn error msg : silent (logger_warn error msg).
Proof. by observe. Qed.

#[export] Hint Resolve blind_ret blind_call blind_derive silent_derive
  blind_deref blind_setBindings
  blind_logger_info blind_logger_warn blind_cloneDeep blind_addDisplayOption
  blind_optionsByResource_add blind_fields_push
  silent_ret silent_call silent_logger_info silent_logger_warn : collector.

Ltac compositional :=
  repeat first
    [ progress eauto with collector
    | apply blind_bind; [|intros ?]
    | apply silent_bind; [|intros ?]
    | apply blind_tryCatch; [|intros ?]
    | apply silent_tryCatch; [|intros ?]
    | apply blind_forOf; intros ?
    | match goal with
      | |- blind (match ?x with _ => _ end) => destruct x
      | |- silent (match ?x with _ => _ end) => destruct x
      end ].

Section CollectorProperties.
Context {operationParser : IOperationParser.t}
        {resourceParser : IResourceParser.t}
        {n8nNodeProperties : N8NINodeProperties.t}
        {utils : Utils.t}.

Lemma blind_parseFields operation context : blind (parseFields operation context).
Proof. unfold parseFields. compositional. Qed.

Lemma silent_parseFields operation context : silent (parseFields operation context).
Proof. unfold parseFields. compositional. Qed.

#[local] Hint Resolve blind_parseFields silent_parseFields : collector.

Lemma blind_parseOperation this operation context :
  blind (parseOperation this operation context).
Proof.
  destruct this; simpl;
    unfold OperationsCollector_parseOperation, BaseOperationsCollector_parseOperation;
    compositional.
Qed.

Lemma silent_parseOperation this operation context :
  silent (parseOperation this operation context).
Proof.
  destruct this; simpl;
    unfold OperationsCollector_parseOperation, BaseOperationsCollector_parseOperation;
    compositional.
Qed.

#[local] Hint Resolve blind_parseOperation silent_parseOperation : collector.

Lemma blind__visitOperation this operation context :
  blind (_visitOperation this operation context).
Proof. unfold _visitOperation. compositional. Qed.

#[local] Hint Resolve blind__visitOperation : collector.

Lemma blind_visitOperation this operation context :
  blind (visitOperation this operation context).
Proof. unfold visitOperation. compositional. Qed.

Lemma blind_walk this visits : blind (walk this visits).
Proof. unfold walk. apply blind_forOf. intros v. apply blind_visitOperation. Qed.

(** ** The methods, step by step *)

Lemma parseFields_unfold operation context s :
  parseFields operation context s
  = match parameterFields operation with
    | Throw e => (Throw (Printable e), s)
    | Normal ps =>
        let fields :=
          List.filter isRequired ps ++
          match List.filter (λ p, negb (isRequired p)) ps with
          | [] => []
          | optional => [additionalFieldsOption optional]
          end in
        match N8NINodeProperties.fromRequestBody (OperationObject.requestBody operation) with
        | Normal bs =>
            (Normal (fields ++ List.filter isRequired bs ++
                     match List.filter (λ p, negb (isRequired p)) bs with
                     | [] => []
                     | optional => [additionalBodyFieldsOption optional]
                     end), s)
        | Throw e =>
            (Normal (fields ++ [bodyNotice context]),
             (log (LogWarn (bindings s) e "Failed to parse request body") s).2)
        end
    end.
Proof.
  unfold parseFields, parameterFields.
  match goal with
  | |- (_ ≫= ?k) s = _ => set (body := k)
  end.
  assert (Hbody : ∀ fields s,
    body fields s
    = match N8NINodeProperties.fromRequestBody (OperationObject.requestBody operation) with
      | Normal bs =>
          (Normal (fields ++ List.filter isRequired bs ++
                   match List.filter (λ p, negb (isRequired p)) bs with
                   | [] => []
                   | optional => [additionalBodyFieldsOption optional]
                   end), s)
      | Throw e =>
          (Normal (fields ++ [bodyNotice context]),
           (log (LogWarn (bindings s) e "Failed to parse request body") s).2)
      end).
  { intros fields s0. unfold body. run_comp.
    destruct (N8NINodeProperties.fromRequestBody _) as [bs|e]; [|done].
    destruct bs as [|b bs]; [simpl; by rewrite app_nil_r|].
    change (0 <? length (b :: bs))%nat with true. cbv iota.
    rewrite splitRequired_filter. cbv beta iota zeta.
    generalize (List.filter isRequired (b :: bs)). intros required.
    destruct (List.filter (λ p, negb (isRequired p)) (b :: bs)); simpl.
    - by rewrite app_nil_r.
    - by rewrite <- app_assoc. }
  clearbody body.
  unfold mbind, Comp_bind, derive, mret, Comp_ret.
  destruct (OperationObject.parameters operation) as [parameters|].
  - destruct (N8NINodeProperties.fromParameters parameters) as [ps|e]; [|done].
    rewrite splitRequired_filter. cbv beta iota zeta.
    generalize (List.filter isRequired ps). intros required.
    destruct (List.filter (λ p, negb (isRequired p)) ps); simpl;
      rewrite Hbody; by rewrite ?app_nil_r.
  - by rewrite Hbody.
Qed.

Lemma parseOperation_unfold this operation context s :
  parseOperation this operation context s
  = match IOperationParser.name operation context with
    | Throw e => (Throw e, s)
    | Normal name =>
    match IOperationParser.value operation context with
    | Throw e => (Throw e, s)
    | Normal value =>
    match IOperationParser.action operation context with
    | Throw e => (Throw e, s)
    | Normal action =>
    match IOperationParser.description operation context with
    | Throw e => (Throw e, s)
    | Normal description =>
    match Utils.replacePathVarsToParameter (OperationContext.pattern context) with
    | Throw e => (Throw e, s)
    | Normal url =>
        let option :=
          {| INodePropertyOptions.name := name;
             INodePropertyOptions.value := value;
             INodePropertyOptions.action := action;
             INodePropertyOptions.description := description;
             INodePropertyOptions.routing :=
               {| Routing.method := toUpperCase (OperationContext.method context);
                  Routing.url := "=" +:+ url |} |} in
        match parseFields operation context s with
        | (Throw e, s') => (Throw e, s')
        | (Normal fields, s') =>
            (Normal (option,
                     match this with
                     | BaseOperationsCollector => fields
                     | OperationsCollector => operationNotice context :: fields
                     end), s')
        end
    end end end end end.
Proof.
  destruct this; simpl;
    unfold OperationsCollector_parseOperation, BaseOperationsCollector_parseOperation;
    unfold mbind, Comp_bind, call, mret, Comp_ret;
    destruct (IOperationParser.name _ _); try done;
    destruct (IOperationParser.value _ _); try done;
    destruct (IOperationParser.action _ _); try done;
    destruct (IOperationParser.description _ _); try done;
    destruct (Utils.replacePathVarsToParameter _); try done;
    by destruct (parseFields _ _ _) as [[?|?] ?].
Qed.

Lemma _visitOperation_unfold this operation context s :
  _visitOperation this operation context s
  = match IOperationParser.shouldSkip operation context with
    | Throw e => (Throw e, s)
    | Normal true => (Normal tt, (log (LogInfo (bindings s) "Skipping operation") s).2)
    | Normal false =>
        match parseOperation this operation context s with
        | (Throw e, s1) => (Throw e, s1)
        | (Normal parsed, s1) =>
            match OperationObject.tags operation with
            | None =>
                (Throw (Printable
                   "TypeError: Cannot read properties of undefined (reading 'map')"), s1)
            | Some tags =>
                match mapC IResourceParser.value tags with
                | Throw e => (Throw e, s1)
                | Normal resources =>
                    (Normal tt, foldl (registered parsed.1 parsed.2) s1 resources)
                end
            end
        end
    end.
Proof.
  unfold _visitOperation.
  unfold mbind at 1, Comp_bind at 1, call at 1.
  destruct (IOperationParser.shouldSkip _ _) as [[|]|]; [done| |done].
  unfold mbind at 1, Comp_bind at 1.
  destruct (parseOperation _ _ _ _) as [[parsed|] s1]; [|done].
  unfold mbind at 1, Comp_bind at 1, deref at 1.
  destruct (OperationObject.tags _) as [tags|]; [|done].
  unfold mbind at 1, Comp_bind at 1, call at 1.
  destruct (mapC _ _) as [resources|]; [|done].
  apply visit_loop_spec.
Qed.

Lemma visitOperation_unfold this operation context s :
  let b := {| Bindings.pattern := OperationContext.pattern context;
              Bindings.method := OperationContext.method context;
              Bindings.operationId := OperationObject.operationId operation |} in
  visitOperation this operation context s
  = match _visitOperation this operation context (setBindings b s).2 with
    | (Normal _, s') => (Normal tt, s')
    | (Throw e, s') =>
        match toText e with
        | Normal text =>
            (Normal tt,
             (log (LogWarn (bindings s') text "Failed to parse operation") s').2)
        | Throw raised => (Throw raised, s')
        end
    end.
Proof.
  unfold visitOperation, tryCatch. unfold mbind at 1, Comp_bind at 1. simpl.
  destruct (_visitOperation _ _ _ _) as [[[]|e] s']; [done|].
  unfold mbind, Comp_bind, call. by destruct (toText e).
Qed.

(** How [visitOperation] ends: it throws only what the template literal of
    its handler throws. *)
Lemma visitOperation_completion this operation context s :
  (visitOperation this operation context s).1
  = match (_visitOperation this operation context s).1 with
    | Normal _ => Normal tt
    | Throw e =>
        match toText e with
        | Normal _ => Normal tt
        | Throw raised => Throw raised
        end
    end.
Proof.
  rewrite visitOperation_unfold. cbv zeta.
  set (s0 := (setBindings _ s).2).
  destruct (blind__visitOperation this operation context s0 s eq_refl) as [<- _].
  destruct (_visitOperation this operation context s0) as [[[]|e] s']; [done|].
  simpl. by destruct (toText e).
Qed.

Lemma walk_step this operation context visits s :
  walk this ((operation, context) :: visits) s
  = match visitOperation this operation context s with
    | (Normal _, s') => walk this visits s'
    | (Throw e, s') => (Throw e, s')
    end.
Proof. done. Qed.

(** A relation that every visit keeps is kept by every traversal, whether
    the traversal comes to its end or not. *)
Lemma walk_invariant (R : Collector → Collector → Prop) this :
  (∀ s, R s s) →
  (∀ s1 s2 s3, R s1 s2 → R s2 s3 → R s1 s3) →
  (∀ operation context s, R s (visitOperation this operation context s).2) →
  ∀ visits s, R s (walk this visits s).2.
Proof.
  intros Hrefl Htrans Hvisit visits.
  induction visits as [|[operation context] visits IH]; intros s; [apply Hrefl|].
  rewrite walk_step. specialize (Hvisit operation context s).
  destruct (visitOperation this operation context s) as [[[]|e] s']; simpl in *.
  - eapply Htrans; [exact Hvisit|apply IH].
  - exact Hvisit.
Qed.

Lemma _visitOperation_throws_before_writing this operation context s e s' :
  _visitOperation this operation context s = (Throw e, s') →
  observable s' = observable s ∧ bindings s' = bindings s.
Proof.
  rewrite _visitOperation_unfold.
  destruct (IOperationParser.shouldSkip _ _) as [[|]|]; [done| |by intros [= <- <-]].
  pose proof (silent_parseOperation this operation context s) as Hs.
  destruct (parseOperation _ _ _ _) as [[parsed|] s1]; simpl in Hs;
    [|by intros [= <- <-]].
  destruct (OperationObject.tags _) as [tags|]; [|by intros [= <- <-]].
  destruct (mapC _ _) as [resources|]; [done|by intros [= <- <-]].
Qed.

(** ** The effect of one visit *)

Lemma observable_inv s1 s2 :
  observable s1 = observable s2 →
  _fields s1 = _fields s2 ∧ optionsByResource s1 = optionsByResource s2
  ∧ heap s1 = heap s2.
Proof. unfold observable. by intros [= -> -> ->]. Qed.

Lemma wf_registered option fs s r : wf s → wf (registered option fs s r).
Proof.
  unfold wf, registered. simpl. intros Hwf.
  rewrite length_app, length_fmap. apply Forall_app. split.
  - eapply Forall_impl; [exact Hwf|]. simpl. lia.
  - apply Forall_seq. lia.
Qed.

Lemma wf_foldl_registered option fs resources s :
  wf s → wf (foldl (registered option fs) s resources).
Proof.
  revert s. induction resources as [|r resources IH]; intros s Hwf; simpl; [done|].
  by apply IH, wf_registered.
Qed.

Lemma wf_observable s1 s2 : observable s1 = observable s2 → wf s1 → wf s2.
Proof. intros (H1 & _ & H2)%observable_inv. unfold wf. by rewrite H1, H2. Qed.

Lemma observable_foldl_registered option fs resources s1 s2 :
  observable s1 = observable s2 →
  observable (foldl (registered option fs) s1 resources)
  = observable (foldl (registered option fs) s2 resources).
Proof.
  intros (H1 & H2 & H3)%observable_inv. unfold observable.
  by rewrite !registered_fields, !registered_options, !registered_heap, H1, H2, H3.
Qed.

(** The state behind the bindings that [visitOperation] sets first. *)
Lemma observable_setBindings b s : observable (setBindings b s).2 = observable s.
Proof. done. Qed.

(** The handler of [visitOperation] writes to the logger at most. *)
Lemma visitOperation_observable this operation context s :
  let b := {| Bindings.pattern := OperationContext.pattern context;
              Bindings.method := OperationContext.method context;
              Bindings.operationId := OperationObject.operationId operation |} in
  observable (visitOperation this operation context s).2
  = observable (_visitOperation this operation context (setBindings b s).2).2.
Proof.
  rewrite visitOperation_unfold. cbv zeta.
  destruct (_visitOperation _ _ _ _) as [[[]|e] s']; [done|].
  by destruct (toText e).
Qed.

(** Whatever a visit does to the observable state, it does by registering
    one option and one field list under a list of resources; the list is
    empty when the operation is skipped or dropped. *)
Lemma visitOperation_effect this operation context s :
  ∃ option fs resources,
    observable (visitOperation this operation context s).2
    = observable (foldl (registered option fs) s resources).
Proof.
  pose (none := {| INodePropertyOptions.name := ""; INodePropertyOptions.value := "";
                   INodePropertyOptions.action := "";
                   INodePropertyOptions.description := "";
                   INodePropertyOptions.routing :=
                     {| Routing.method := ""; Routing.url := "" |} |}).
  rewrite visitOperation_observable. cbv zeta.
  set (s0 := (setBindings _ s).2).
  destruct (_visitOperation this operation context s0) as [[[]|e] s'] eqn:E.
  - rewrite _visitOperation_unfold in E.
    destruct (IOperationParser.shouldSkip _ _) as [[|]|]; [| |done].
    { injection E as <-. by exists none, [], []. }
    destruct (silent_parseOperation this operation context s0) as [Hs _].
    destruct (parseOperation _ _ _ _) as [[parsed|] s1]; [|done].
    destruct (OperationObject.tags _) as [tags|]; [|done].
    destruct (mapC _ _) as [resources|]; [|done].
    injection E as <-. exists parsed.1, parsed.2, resources.
    apply observable_foldl_registered. exact Hs.
  - apply _visitOperation_throws_before_writing in E as [E _].
    exists none, [], []. exact E.
Qed.

Lemma visitOperation_wf this operation context s :
  wf s → wf (visitOperation this operation context s).2.
Proof.
  intros Hwf. destruct (visitOperation_effect this operation context s)
    as (option & fs & resources & E).
  eapply wf_observable; [symmetry; exact E|]. by apply wf_foldl_registered.
Qed.

Lemma visitOperation_keeps_options this operation context s r :
  OptionsByResourceMap.get r (optionsByResource s)
  `prefix_of`
  OptionsByResourceMap.get r (optionsByResource (visitOperation this operation context s).2).
Proof.
  destruct (visitOperation_effect this operation context s)
    as (option & fs & resources & (_ & E & _)%observable_inv).
  rewrite E, registered_options, get_foldl_add. by apply prefix_app_r.
Qed.

Lemma walk_keeps_options this visits s r :
  OptionsByResourceMap.get r (optionsByResource s)
  `prefix_of`
  OptionsByResourceMap.get r (optionsByResource (walk this visits s).2).
Proof.
  revert visits s.
  apply (walk_invariant
           (λ s s', OptionsByResourceMap.get r (optionsByResource s)
                    `prefix_of` OptionsByResourceMap.get r (optionsByResource s'))).
  - done.
  - intros s1 s2 s3 H12 H23. by etrans.
  - intros. apply visitOperation_keeps_options.
Qed.

Lemma walk_wf this visits s : wf s → wf (walk this visits s).2.
Proof.
  revert visits s. apply (walk_invariant (λ s s', wf s → wf s')); [done|auto|].
  intros. by apply visitOperation_wf.
Qed.

(** Every state that a fresh collector reaches is well formed. *)
Lemma walk_fresh_wf this visits log : wf (walk this visits (newCollector log)).2.
Proof. apply walk_wf. constructor. Qed.

(** ** The claims *)

(** X16.  What a visit registers.  An operation that passes the skip
    policy, whose option and field list are derived, and whose tags resolve
    to the resources [resources], one per tag, is registered by
    [visitOperation] once per entry of [resources]: the option is appended to
    the sequence of each of them (once where the resources are distinct), and
    for each of them one fresh copy of the field list is allocated and
    appended to [_fields].  Every field of the copy made for [r] has the
    visibility condition [{resource: [r], operation: [option.name]}], the
    name of the option and not its value, and is in every other property the
    field it was copied from.  Objects allocated before are left as they
    were. *)
Theorem visitOperation_registers_under_each_resource
    this operation context s option operationFields tags resources :
  wf s →
  IOperationParser.shouldSkip operation context = Normal false →
  (parseOperation this operation context s).1 = Normal (option, operationFields) →
  OperationObject.tags operation = Some tags →
  mapC IResourceParser.value tags = Normal resources →
  let s' := (visitOperation this operation context s).2 in
  let tagged r :=
    INodeProperties.setDisplayOptions (shown r (INodePropertyOptions.name option))
    <$> operationFields in
  (visitOperation this operation context s).1 = Normal tt
  ∧ length resources = length tags
  ∧ optionsByResource s'
    = foldl (λ m r, OptionsByResourceMap.add r option m) (optionsByResource s) resources
  ∧ (∀ r, OptionsByResourceMap.get r (optionsByResource s')
          = OptionsByResourceMap.get r (optionsByResource s)
            ++ replicate (length (filter (λ r', r' = r) resources)) option)
  ∧ fields s'
    = fields s ++ seq (length (heap s)) (length resources * length operationFields)
  ∧ objects s' (fields s') = objects s (fields s) ++ (resources ≫= tagged)
  ∧ (∀ r, Forall2
            (λ field copy,
               INodeProperties.displayOptions copy
               = Some {| DisplayOptions.resource := [r];
                         DisplayOptions.operation :=
                           Some [INodePropertyOptions.name option] |}
               ∧ INodeProperties.displayName copy = INodeProperties.displayName field
               ∧ INodeProperties.name copy = INodeProperties.name field
               ∧ INodeProperties.type copy = INodeProperties.type field
               ∧ INodeProperties.required copy = INodeProperties.required field
               ∧ INodeProperties.default copy = INodeProperties.default field
               ∧ INodeProperties.placeholder copy = INodeProperties.placeholder field
               ∧ INodeProperties.description copy = INodeProperties.description field
               ∧ INodeProperties.noDataExpression copy
                 = INodeProperties.noDataExpression field
               ∧ INodeProperties.typeOptions copy = INodeProperties.typeOptions field
               ∧ INodeProperties.routing copy = INodeProperties.routing field
               ∧ INodeProperties.options copy = INodeProperties.options field)
            operationFields (tagged r))
  ∧ (∀ l, l < length (heap s) → heap s' !! l = heap s !! l)
  ∧ wf s'.
Proof.
  intros Hwf Hskip Hparse Htags Hres s' tagged.
  split.
  { rewrite visitOperation_completion, _visitOperation_unfold, Hskip, Htags, Hres.
    by destruct (parseOperation this operation context s) as [[parsed|] s1]. }
  split; [by eapply mapC_length|].
  assert (Hs' : observable s'
                = observable (foldl (registered option operationFields) s resources)).
  { subst s'. rewrite visitOperation_unfold. cbv zeta.
    set (s0 := (setBindings _ s).2).
    rewrite _visitOperation_unfold, Hskip, Htags, Hres.
    destruct (blind_parseOperation this operation context s0 s
                (observable_setBindings _ s)) as [Hb _].
    destruct (silent_parseOperation this operation context s0) as [Hs _].
    rewrite Hparse in Hb.
    destruct (parseOperation _ _ _ s0) as [[parsed|] s1]; simpl in Hb, Hs; [|done].
    injection Hb as ->. simpl.
    apply observable_foldl_registered. exact Hs. }
  apply observable_inv in Hs' as (Hf & Ho & Hh).
  rewrite registered_fields in Hf. rewrite registered_options in Ho.
  rewrite registered_heap in Hh. fold tagged in Hh.
  assert (Hlen : length (resources ≫= tagged)
                 = length resources * length operationFields).
  { clear. induction resources as [|r resources IH]; csimpl; [done|].
    rewrite length_app, IH. unfold tagged. by rewrite length_fmap. }
  repeat split.
  - exact Ho.
  - intros r. by rewrite Ho, get_foldl_add.
  - exact Hf.
  - unfold objects, fields. rewrite Hf, Hh, omap_app. f_equal.
    + by apply objects_old.
    + rewrite <- Hlen. apply objects_fresh.
  - intros r. unfold tagged. apply Forall2_fmap_r, Forall_Forall2_diag, Forall_true.
    intros field. by repeat split.
  - intros l Hl. rewrite Hh. by apply lookup_app_l.
  - by apply visitOperation_wf.
Qed.

(** A visit whose inner step throws leaves the observable state as it was;
    it returns and logs when the thrown value has a text, and throws what the
    template literal throws when it has none. *)
Lemma visitOperation_dropped this operation context s e :
  (_visitOperation this operation context s).1 = Throw e →
  let b := {| Bindings.pattern := OperationContext.pattern context;
              Bindings.method := OperationContext.method context;
              Bindings.operationId := OperationObject.operationId operation |} in
  let s' := (visitOperation this operation context s).2 in
  observable s' = observable s
  ∧ match toText e with
    | Normal text =>
        (visitOperation this operation context s).1 = Normal tt
        ∧ last (logger s') = Some (LogWarn (Some b) text "Failed to parse operation")
    | Throw raised =>
        (visitOperation this operation context s).1 = Throw raised
        ∧ Forall (λ r, ∀ b' text, r ≠ LogWarn b' text "Failed to parse operation")
                 (drop (length (logger s)) (logger s'))
    end.
Proof.
  intros Hthrow b s'.
  subst s'. rewrite visitOperation_unfold. cbv zeta. fold b.
  set (s0 := (setBindings b s).2).
  destruct (blind__visitOperation this operation context s0 s
              (observable_setBindings b s)) as [Hb _].
  rewrite Hthrow in Hb.
  destruct (_visitOperation this operation context s0) as [[[]|e'] s1] eqn:E;
    simpl in Hb; [done|]. injection Hb as ->.
  pose proof (_visitOperation_throws_before_writing _ _ _ _ _ _ E) as [E1 E2].
  destruct (toText e) as [text|raised]; simpl.
  - split; [exact E1|]. split; [done|]. rewrite E2. apply last_snoc.
  - split; [exact E1|]. split; [done|].
    revert E. rewrite _visitOperation_unfold.
    destruct (IOperationParser.shouldSkip _ _) as [[|]|]; [done| |].
    + pose proof (parseOperation_unfold this operation context s0) as Hp.
      rewrite parseFields_unfold in Hp.
      assert (Hlog : ∀ p s1, parseOperation this operation context s0 = (p, s1) →
                Forall (λ r, ∀ b' text, r ≠ LogWarn b' text "Failed to parse operation")
                       (drop (length (logger s)) (logger s1))).
      { intros p s2. rewrite Hp. clear.
        destruct (IOperationParser.name _ _);
          [|intros [= _ <-]; simpl; rewrite drop_all; constructor].
        destruct (IOperationParser.value _ _);
          [|intros [= _ <-]; simpl; rewrite drop_all; constructor].
        destruct (IOperationParser.action _ _);
          [|intros [= _ <-]; simpl; rewrite drop_all; constructor].
        destruct (IOperationParser.description _ _);
          [|intros [= _ <-]; simpl; rewrite drop_all; constructor].
        destruct (Utils.replacePathVarsToParameter _);
          [|intros [= _ <-]; simpl; rewrite drop_all; constructor].
        destruct (parameterFields operation); cbv zeta;
          [|intros [= _ <-]; simpl; rewrite drop_all; constructor].
        destruct (N8NINodeProperties.fromRequestBody _);
          intros [= _ <-]; simpl.
        - rewrite drop_all. constructor.
        - rewrite drop_app_length. by repeat constructor. }
      destruct (parseOperation this operation context s0) as [[parsed|e0] s2] eqn:Ep.
      * destruct (OperationObject.tags _); [|intros [= _ <-]; by eapply Hlog].
        destruct (mapC _ _); [done|]. intros [= _ <-]. by eapply Hlog.
      * intros [= _ <-]. by eapply Hlog.
    + intros [= _ <-]. simpl. rewrite drop_all. constructor.
Qed.

(** X17.  The failure boundary of [visitOperation], for the values that
    have a text.  When the inner step [_visitOperation] throws a value that
    [`${error}`] renders (whether it throws is independent of the log
    context that [visitOperation] sets), the exception is caught, a warning
    with the log context and that text is the last record logged, and the
    operation leaves no trace: [_fields], the heap and the aggregator, and
    hence both outputs, are as before the call; the traversal goes on, and
    the operations visited afterwards are processed as if the failing one
    had not been there. *)
Theorem visitOperation_isolates_failure this operation context s e text rest :
  (_visitOperation this operation context s).1 = Throw e →
  toText e = Normal text →
  let b := {| Bindings.pattern := OperationContext.pattern context;
              Bindings.method := OperationContext.method context;
              Bindings.operationId := OperationObject.operationId operation |} in
  let s' := (visitOperation this operation context s).2 in
  (visitOperation this operation context s).1 = Normal tt
  ∧ _fields s' = _fields s
  ∧ heap s' = heap s
  ∧ optionsByResource s' = optionsByResource s
  ∧ objects s' (fields s') = objects s (fields s)
  ∧ operations s' = operations s
  ∧ last (logger s') = Some (LogWarn (Some b) text "Failed to parse operation")
  ∧ walk this ((operation, context) :: rest) s = walk this rest s'
  ∧ (walk this ((operation, context) :: rest) s).1 = (walk this rest s).1
  ∧ observable (walk this ((operation, context) :: rest) s).2
    = observable (walk this rest s).2.
Proof.
  intros Hthrow Htext b s'.
  pose proof (visitOperation_dropped this operation context s e Hthrow) as Hs'.
  cbv zeta in Hs'. fold b s' in Hs'. rewrite Htext in Hs'.
  destruct Hs' as (Hobs & Hret & Hlog).
  pose proof Hobs as (Hf & Ho & Hh)%observable_inv.
  assert (Hwalk : walk this ((operation, context) :: rest) s = walk this rest s').
  { rewrite walk_step. subst s'.
    by destruct (visitOperation this operation context s) as [[[]|] s1]. }
  repeat split; try done.
  - unfold objects, fields. by rewrite Hf, Hh.
  - unfold operations. by rewrite Ho.
  - rewrite Hwalk. by apply blind_walk.
  - rewrite Hwalk. by apply blind_walk.
Qed.

(** C3.  The [operations] getter throws exactly when the aggregator holds
    no resource.  Otherwise it returns one field per resource, in the order
    of the aggregator: an options field shown for that resource only, whose
    options are the sequence registered for the resource. *)
Theorem operations_throws_iff_no_resource s :
  let m := optionsByResource s in
  ((∃ e, operations s = Throw e) ↔ OptionsByResourceMap.size m = 0)
  ∧ (OptionsByResourceMap.size m ≠ 0 →
     ∃ ops, operations s = Normal ops
       ∧ length ops = OptionsByResourceMap.size m
       ∧ ∀ i resource options,
           OptionsByResourceMap.entries m !! i = Some (resource, options) →
           ∃ field, ops !! i = Some field
             ∧ field = operationSelector resource options
             ∧ INodeProperties.type field = "options"
             ∧ INodeProperties.displayOptions field
               = Some {| DisplayOptions.resource := [resource];
                         DisplayOptions.operation := None |}
             ∧ INodeProperties.options field = Some (inl <$> options)).
Proof.
  intros m. unfold operations. fold m.
  destruct (decide (OptionsByResourceMap.size m = 0)) as [Hz|Hnz].
  - split; [|done]. split; [done|]. intros _. by eexists.
  - split.
    + split; [by intros [e [=]]|done].
    + intros _. eexists. split; [done|].
      rewrite operations_loop.
      simpl. split.
      * by rewrite length_fmap.
      * intros i resource options Hi. eexists. split.
        -- rewrite list_lookup_fmap, Hi. done.
        -- done.
Qed.

(** C4 (amended).  For an operation whose parameter fields [ps] are derived
    ([fromParameters] is called outside the [try], and what it throws,
    [parseFields] throws), [parseFields] returns, in this order: the required
    parameter fields; one collection field [additionalQueryParameters]
    holding the optional parameter fields, if there are any; the required
    body fields; and then one collection field [additionalBodyFields] holding
    the optional body fields, if there are any, or, when the body derivation
    throws, the one advisory notice.  The fields put directly and the fields
    nested in the collections are together the derived fields, each of them
    once. *)
Theorem parseFields_order_and_coverage operation context s ps :
  parameterFields operation = Normal ps →
  let requiredParameters := List.filter isRequired ps in
  let optionalParameters := List.filter (λ p, negb (isRequired p)) ps in
  let parameterPart :=
    requiredParameters ++
    match optionalParameters with
    | [] => []
    | _ => [additionalFieldsOption optionalParameters]
    end in
  requiredParameters ++ optionalParameters ≡ₚ ps
  ∧ additionalFieldsOption optionalParameters
    = {| INodeProperties.displayName := "Additional Query Parameters";
         INodeProperties.name := "additionalQueryParameters";
         INodeProperties.type := "collection";
         INodeProperties.required := None;
         INodeProperties.default := JsObject [];
         INodeProperties.placeholder := Some "Add Field";
         INodeProperties.description :=
           Some "Optional query parameters that can be added";
         INodeProperties.noDataExpression := None;
         INodeProperties.typeOptions := None;
         INodeProperties.routing := None;
         INodeProperties.options := Some (inr <$> optionalParameters);
         INodeProperties.displayOptions := None |}
  ∧ match N8NINodeProperties.fromRequestBody (OperationObject.requestBody operation) with
    | Normal bs =>
        let requiredBodyFields := List.filter isRequired bs in
        let optionalBodyFields := List.filter (λ p, negb (isRequired p)) bs in
        (parseFields operation context s).1
        = Normal (parameterPart ++ requiredBodyFields ++
                  match optionalBodyFields with
                  | [] => []
                  | _ => [additionalBodyFieldsOption optionalBodyFields]
                  end)
        ∧ requiredBodyFields ++ optionalBodyFields ≡ₚ bs
        ∧ additionalBodyFieldsOption optionalBodyFields
          = {| INodeProperties.displayName := "Additional Body Fields";
               INodeProperties.name := "additionalBodyFields";
               INodeProperties.type := "collection";
               INodeProperties.required := None;
               INodeProperties.default := JsObject [];
               INodeProperties.placeholder := Some "Add Field";
               INodeProperties.description :=
                 Some "Optional body fields that can be added";
               INodeProperties.noDataExpression := None;
               INodeProperties.typeOptions := None;
               INodeProperties.routing := None;
               INodeProperties.options := Some (inr <$> optionalBodyFields);
               INodeProperties.displayOptions := None |}
    | Throw e =>
        (parseFields operation context s).1
        = Normal (parameterPart ++ [bodyNotice context])
        ∧ bodyNotice context
          = {| INodeProperties.displayName :=
                 toUpperCase (OperationContext.method context) +:+ " "
                 +:+ OperationContext.pattern context +:+ "<br/><br/>"
                 +:+ "There's no body available for request, kindly use HTTP Request node to send body";
               INodeProperties.name := "operation";
               INodeProperties.type := "notice";
               INodeProperties.required := None;
               INodeProperties.default := JsString "";
               INodeProperties.placeholder := None;
               INodeProperties.description := None;
               INodeProperties.noDataExpression := None;
               INodeProperties.typeOptions := None;
               INodeProperties.routing := None;
               INodeProperties.options := None;
               INodeProperties.displayOptions := None |}
    end.
Proof.
  intros Hps. cbv zeta. split; [apply filter_partition_Permutation|].
  split; [done|].
  rewrite parseFields_unfold, Hps. cbv zeta.
  destruct (N8NINodeProperties.fromRequestBody _) as [bs|e]; simpl.
  - split; [|split; [apply filter_partition_Permutation|done]].
    do 2 f_equal.
    + by destruct (List.filter (λ p, negb (isRequired p)) ps).
    + by destruct (List.filter (λ p, negb (isRequired p)) bs).
  - split; [|done].
    do 2 f_equal. by destruct (List.filter (λ p, negb (isRequired p)) ps).
Qed.

(** C5.  When [fromRequestBody] throws, [parseFields] still returns: its
    result is what the parameters give, with no field from the body, and
    the advisory notice as last element, whose text is the method in upper
    case, a space, the pattern, [<br/><br/>] and the fixed message.  The
    failure is logged as a warning and nothing else is written. *)
Theorem parseFields_survives_body_failure operation context s ps e :
  parameterFields operation = Normal ps →
  N8NINodeProperties.fromRequestBody (OperationObject.requestBody operation) = Throw e →
  let optionalParameters := List.filter (λ p, negb (isRequired p)) ps in
  let parameterPart :=
    List.filter isRequired ps ++
    match optionalParameters with
    | [] => []
    | _ => [additionalFieldsOption optionalParameters]
    end in
  ∃ s', parseFields operation context s
        = (Normal (parameterPart ++ [bodyNotice context]), s')
    ∧ INodeProperties.displayName (bodyNotice context)
      = toUpperCase (OperationContext.method context) +:+ " "
        +:+ OperationContext.pattern context +:+ "<br/><br/>"
        +:+ "There's no body available for request, kindly use HTTP Request node to send body"
    ∧ INodeProperties.type (bodyNotice context) = "notice"
    ∧ observable s' = observable s
    ∧ logger s' = logger s ++ [LogWarn (bindings s) e "Failed to parse request body"].
Proof.
  intros Hps Hbody. cbv zeta. rewrite parseFields_unfold, Hps, Hbody. cbv zeta.
  eexists. split.
  - do 3 f_equal. by destruct (List.filter (λ p, negb (isRequired p)) ps).
  - done.
Qed.

(** C6.  When the skip policy answers true, [visitOperation] registers no
    option and appends no field: [_fields], the heap and the aggregator are
    as before, and one info record is logged. *)
Theorem visitOperation_skips this operation context s :
  IOperationParser.shouldSkip operation context = Normal true →
  let b := {| Bindings.pattern := OperationContext.pattern context;
              Bindings.method := OperationContext.method context;
              Bindings.operationId := OperationObject.operationId operation |} in
  ∃ s', visitOperation this operation context s = (Normal tt, s')
    ∧ _fields s' = _fields s
    ∧ heap s' = heap s
    ∧ optionsByResource s' = optionsByResource s
    ∧ objects s' (fields s') = objects s (fields s)
    ∧ operations s' = operations s
    ∧ logger s' = logger s ++ [LogInfo (Some b) "Skipping operation"].
Proof.
  intros Hskip b. rewrite visitOperation_unfold. cbv zeta.
  rewrite _visitOperation_unfold, Hskip. by eexists.
Qed.

(** C7 (amended).  The routing of a derived option is
    [{method: upper(context.method), url: "=" + rewritten context.pattern}]:
    the rewritten pattern with an equals sign in front.  It is set when the
    option is built, and no later visit changes or removes an option that
    the aggregator holds: the sequence of a resource only grows at its end. *)
Theorem parseOperation_binds_routing this operation context s option operationFields s1 :
  parseOperation this operation context s = (Normal (option, operationFields), s1) →
  (∃ url,
     Utils.replacePathVarsToParameter (OperationContext.pattern context) = Normal url
     ∧ INodePropertyOptions.routing option
       = {| Routing.method := toUpperCase (OperationContext.method context);
            Routing.url := "=" +:+ url |})
  ∧ (∀ this' visits s0 r,
       OptionsByResourceMap.get r (optionsByResource s0)
       `prefix_of`
       OptionsByResourceMap.get r (optionsByResource (walk this' visits s0).2)).
Proof.
  intros Hparse. split; [|intros; apply walk_keeps_options].
  rewrite parseOperation_unfold in Hparse.
  destruct (IOperationParser.name _ _); [|done].
  destruct (IOperationParser.value _ _); [|done].
  destruct (IOperationParser.action _ _); [|done].
  destruct (IOperationParser.description _ _); [|done].
  destruct (Utils.replacePathVarsToParameter _) as [url|]; [|done].
  cbv zeta in Hparse.
  destruct (parseFields _ _ _) as [[fs|] s']; [|done].
  injection Hparse as <- _ _. by exists url.
Qed.

(** C8.  [OperationsCollector.parseOperation] ends as the method of the
    base class does, in the same state; when that one returns, the option
    is the same and the field list is the list of the base class with one
    notice in front, whose text is the method in upper case, a space and the
    pattern. *)
Theorem OperationsCollector_parseOperation_prepends_notice operation context s :
  match BaseOperationsCollector_parseOperation operation context s with
  | (Normal (option, fields), s') =>
      OperationsCollector_parseOperation operation context s
      = (Normal (option, operationNotice context :: fields), s')
  | (Throw e, s') =>
      OperationsCollector_parseOperation operation context s = (Throw e, s')
  end
  ∧ INodeProperties.displayName (operationNotice context)
    = toUpperCase (OperationContext.method context) +:+ " "
      +:+ OperationContext.pattern context
  ∧ INodeProperties.type (operationNotice context) = "notice"
  ∧ INodeProperties.options (operationNotice context) = None.
Proof.
  split; [|done].
  unfold OperationsCollector_parseOperation, mbind, Comp_bind.
  by destruct (BaseOperationsCollector_parseOperation _ _ _) as [[[option fs]|e] s'].
Qed.

(** C9.  Two fresh collectors that are sent the same visits give the same
    outputs, whatever their loggers have received: the same [operations]
    (or the same error), the same [fields] array and the same objects in
    it. *)
Theorem collector_is_deterministic this visits log1 log2 :
  let s1 := (walk this visits (newCollector log1)).2 in
  let s2 := (walk this visits (newCollector log2)).2 in
  operations s1 = operations s2
  ∧ fields s1 = fields s2
  ∧ objects s1 (fields s1) = objects s2 (fields s2).
Proof.
  intros s1 s2.
  destruct (blind_walk this visits (newCollector log1) (newCollector log2) eq_refl)
    as [_ (Hf & Ho & Hh)%observable_inv].
  fold s1 s2 in Hf, Ho, Hh. unfold operations, objects, fields.
  by rewrite Hf, Ho, Hh.
Qed.


End CollectorProperties.

(** ** Further properties of the collector *)

(** *** Tagging in place *)

Lemma setDisplayOptions_twice d1 d2 field :
  INodeProperties.setDisplayOptions d2 (INodeProperties.setDisplayOptions d1 field)
  = INodeProperties.setDisplayOptions d2 field.
Proof. done. Qed.

Lemma addDisplayOption_run refs resource operation s :
  addDisplayOption refs resource operation s
  = (Normal tt,
     {| _fields := _fields s; optionsByResource := optionsByResource s;
        bindings := bindings s;
        heap := assignedAll (shown resource operation) refs (heap s);
        logger := logger s |}).
Proof.
  unfold addDisplayOption, assignedAll. fold (shown resource operation).
  revert s. induction refs as [|l refs IH]; intros s; simpl.
  - by destruct s.
  - unfold mbind, Comp_bind, assignDisplayOptions at 1. simpl. by rewrite IH.
Qed.

Lemma assignedAll_length d refs h : length (assignedAll d refs h) = length h.
Proof.
  unfold assignedAll. revert h. induction refs as [|l refs IH]; intros h; simpl; [done|].
  by rewrite IH, length_alter.
Qed.

Lemma assignedAll_lookup d refs h (l : loc) :
  assignedAll d refs h !! l
  = if decide (l ∈ refs)
    then INodeProperties.setDisplayOptions d <$> h !! l
    else h !! l.
Proof.
  unfold assignedAll. revert h. induction refs as [|a refs IH]; intros h.
  - done.
  - cbn [foldl]. rewrite IH, list_lookup_alter.
    repeat case_decide; subst; try done; try (by destruct (h !! _)); exfalso;
      match goal with
      | H : _ ∈ _ :: _ |- _ => by apply elem_of_cons in H as [|]
      | H : ¬ _ ∈ _ :: _ |- _ => apply H, elem_of_cons; auto
      end.
Qed.

(** X1.  [addDisplayOption] returns, writes to nothing but the objects that
    [fields] refers to, and on those it replaces the visibility condition,
    whatever it was, by [{resource: [resource], operation: [operation]}];
    every other property of the object, its nested options among them,
    stays. *)
Theorem addDisplayOption_overwrites_in_place refs resource operation s :
  let s' := (addDisplayOption refs resource operation s).2 in
  (addDisplayOption refs resource operation s).1 = Normal tt
  ∧ _fields s' = _fields s
  ∧ optionsByResource s' = optionsByResource s
  ∧ bindings s' = bindings s
  ∧ logger s' = logger s
  ∧ length (heap s') = length (heap s)
  ∧ (∀ l, l ∉ refs → heap s' !! l = heap s !! l)
  ∧ (∀ l field, l ∈ refs → heap s !! l = Some field →
       ∃ field', heap s' !! l = Some field'
         ∧ INodeProperties.displayOptions field'
           = Some {| DisplayOptions.resource := [resource];
                     DisplayOptions.operation := Some [operation] |}
         ∧ INodeProperties.name field' = INodeProperties.name field
         ∧ INodeProperties.displayName field' = INodeProperties.displayName field
         ∧ INodeProperties.type field' = INodeProperties.type field
         ∧ INodeProperties.required field' = INodeProperties.required field
         ∧ INodeProperties.default field' = INodeProperties.default field
         ∧ INodeProperties.placeholder field' = INodeProperties.placeholder field
         ∧ INodeProperties.description field' = INodeProperties.description field
         ∧ INodeProperties.noDataExpression field'
           = INodeProperties.noDataExpression field
         ∧ INodeProperties.typeOptions field' = INodeProperties.typeOptions field
         ∧ INodeProperties.routing field' = INodeProperties.routing field
         ∧ INodeProperties.options field' = INodeProperties.options field).
Proof.
  rewrite addDisplayOption_run. simpl.
  repeat split; try done.
  - apply assignedAll_length.
  - intros l Hl. by rewrite assignedAll_lookup, decide_False.
  - intros l field Hl Hfield. eexists.
    rewrite assignedAll_lookup, decide_True, Hfield by done. done.
Qed.

(** X2.  Tagging the same objects a second time leaves no trace of the
    first tagging: the last visibility condition written is the one that
    stays.  (This is what the copy per resource in [_visitOperation]
    prevents.) *)
Theorem addDisplayOption_last_wins refs resource1 operation1 resource2 operation2 s :
  (addDisplayOption refs resource1 operation1
   ≫= λ _, addDisplayOption refs resource2 operation2) s
  = addDisplayOption refs resource2 operation2 s.
Proof.
  unfold mbind, Comp_bind. rewrite !addDisplayOption_run. simpl.
  do 2 f_equal. apply list_eq. intros l.
  rewrite !assignedAll_lookup.
  repeat case_decide; try done.
  rewrite <- option_fmap_compose. by apply option_fmap_ext.
Qed.

Section CollectorEdges.
Context {operationParser : IOperationParser.t}
        {resourceParser : IResourceParser.t}
        {n8nNodeProperties : N8NINodeProperties.t}
        {utils : Utils.t}.

(** *** Failures inside [parseFields] and [parseOperation] *)

Lemma parseFields_throw_inv operation context s e s' :
  parseFields operation context s = (Throw e, s') →
  ∃ text, e = Printable text ∧ parameterFields operation = Throw text ∧ s' = s.
Proof.
  rewrite parseFields_unfold.
  destruct (parameterFields operation) as [ps|text]; cbv zeta.
  - by destruct (N8NINodeProperties.fromRequestBody _).
  - intros [= <- <-]. by exists text.
Qed.

(** X3.  [parseFields] throws exactly when the operation has a parameter
    list and [fromParameters] throws on it: the error is passed on as it is,
    nothing is logged, and the request body is not looked at.  A failure of
    [fromRequestBody] never makes [parseFields] throw. *)
Theorem parseFields_throws_iff_parameters_fail operation context s e s' :
  parseFields operation context s = (Throw e, s')
  ↔ (∃ parameters text,
       OperationObject.parameters operation = Some parameters
       ∧ N8NINodeProperties.fromParameters parameters = Throw text
       ∧ e = Printable text)
    ∧ s' = s.
Proof.
  split.
  - intros H. apply parseFields_throw_inv in H as (text & -> & Hp & ->).
    split; [|done]. unfold parameterFields in Hp.
    destruct (OperationObject.parameters operation) as [parameters|]; [|done].
    by exists parameters, text.
  - intros [(parameters & text & Hp & Hf & ->) ->].
    rewrite parseFields_unfold. unfold parameterFields. by rewrite Hp, Hf.
Qed.

(** X4.  [parseFields] writes to the logger only: the [_fields] array, the
    heap, the aggregator and the log context are as before.  It logs one
    warning, with the log context and the error, when the parameters are
    derived and [fromRequestBody] throws, and nothing otherwise. *)
Theorem parseFields_only_logs operation context s :
  let s' := (parseFields operation context s).2 in
  _fields s' = _fields s
  ∧ heap s' = heap s
  ∧ optionsByResource s' = optionsByResource s
  ∧ bindings s' = bindings s
  ∧ logger s'
    = logger s ++
      match parameterFields operation,
            N8NINodeProperties.fromRequestBody (OperationObject.requestBody operation)
      with
      | Normal _, Throw e => [LogWarn (bindings s) e "Failed to parse request body"]
      | _, _ => []
      end.
Proof.
  rewrite parseFields_unfold.
  destruct (parameterFields operation) as [ps|e]; cbv zeta.
  - destruct (N8NINodeProperties.fromRequestBody _); simpl;
      by rewrite ?app_nil_r.
  - simpl. by rewrite app_nil_r.
Qed.

Lemma parseOperation_throw_state this operation context s e s' :
  parseOperation this operation context s = (Throw e, s') → s' = s.
Proof.
  rewrite parseOperation_unfold.
  destruct (IOperationParser.name _ _); [|by intros [= _ <-]].
  destruct (IOperationParser.value _ _); [|by intros [= _ <-]].
  destruct (IOperationParser.action _ _); [|by intros [= _ <-]].
  destruct (IOperationParser.description _ _); [|by intros [= _ <-]].
  destruct (Utils.replacePathVarsToParameter _); [|by intros [= _ <-]].
  cbv zeta.
  destruct (parseFields operation context s) as [[fs|e0] s0] eqn:E; [done|].
  intros [= _ <-]. by apply parseFields_throw_inv in E as (? & _ & _ & ->).
Qed.

(** The state that [parseOperation] leaves: the one it started in, with the
    warning of [parseFields] when it returned and the body had failed. *)
Lemma parseOperation_state this operation context s :
  (parseOperation this operation context s).2
  = match (parseOperation this operation context s).1,
          N8NINodeProperties.fromRequestBody (OperationObject.requestBody operation)
    with
    | Normal _, Throw e =>
        (log (LogWarn (bindings s) e "Failed to parse request body") s).2
    | _, _ => s
    end.
Proof.
  rewrite parseOperation_unfold.
  destruct (IOperationParser.name _ _); [|done].
  destruct (IOperationParser.value _ _); [|done].
  destruct (IOperationParser.action _ _); [|done].
  destruct (IOperationParser.description _ _); [|done].
  destruct (Utils.replacePathVarsToParameter _); [|done].
  cbv zeta. rewrite parseFields_unfold.
  destruct (parameterFields operation); cbv zeta; [|done].
  by destruct (N8NINodeProperties.fromRequestBody _).
Qed.

(** X5.  [parseOperation] returns exactly when the four derivations of the
    operation parser, the rewriting of the pattern and the derivation of the
    parameters all return; the option then carries the four strings of the
    parser as they are.  When it throws, it has written nothing, not even to
    the logger. *)
Theorem parseOperation_returns_iff this operation context s :
  ((∃ parsed s', parseOperation this operation context s = (Normal parsed, s'))
   ↔ (∃ name value action description url ps,
        IOperationParser.name operation context = Normal name
        ∧ IOperationParser.value operation context = Normal value
        ∧ IOperationParser.action operation context = Normal action
        ∧ IOperationParser.description operation context = Normal description
        ∧ Utils.replacePathVarsToParameter (OperationContext.pattern context)
          = Normal url
        ∧ parameterFields operation = Normal ps))
  ∧ (∀ parsed s', parseOperation this operation context s = (Normal parsed, s') →
       IOperationParser.name operation context
       = Normal (INodePropertyOptions.name parsed.1)
       ∧ IOperationParser.value operation context
         = Normal (INodePropertyOptions.value parsed.1)
       ∧ IOperationParser.action operation context
         = Normal (INodePropertyOptions.action parsed.1)
       ∧ IOperationParser.description operation context
         = Normal (INodePropertyOptions.description parsed.1))
  ∧ (∀ e s', parseOperation this operation context s = (Throw e, s') → s' = s).
Proof.
  split; [|split; [|by apply parseOperation_throw_state]].
  - rewrite parseOperation_unfold, parseFields_unfold. split.
    + intros (parsed & s' & H).
      destruct (IOperationParser.name _ _) as [name|]; [|done].
      destruct (IOperationParser.value _ _) as [value|]; [|done].
      destruct (IOperationParser.action _ _) as [action|]; [|done].
      destruct (IOperationParser.description _ _) as [description|]; [|done].
      destruct (Utils.replacePathVarsToParameter _) as [url|]; [|done].
      destruct (parameterFields operation) as [ps|]; [|done].
      by exists name, value, action, description, url, ps.
    + intros (name & value & action & description & url & ps
              & -> & -> & -> & -> & -> & ->). cbv zeta.
      destruct (N8NINodeProperties.fromRequestBody _); by eexists _, _.
  - intros parsed s'. rewrite parseOperation_unfold.
    destruct (IOperationParser.name _ _) as [name|]; [|done].
    destruct (IOperationParser.value _ _) as [value|]; [|done].
    destruct (IOperationParser.action _ _) as [action|]; [|done].
    destruct (IOperationParser.description _ _) as [description|]; [|done].
    destruct (Utils.replacePathVarsToParameter _) as [url|]; [|done].
    cbv zeta. destruct (parseFields _ _ _) as [[fs|] s0]; [|done].
    by intros [= <- _].
Qed.

(** *** Tag lists at the edges *)

Lemma mapC_throws {E A B} (f : A → Outcome E B) (l : list A) x e :
  x ∈ l → f x = Throw e → ∃ e', mapC f l = Throw e'.
Proof.
  intros Hx Hf. induction l as [|y l IH]; [by apply elem_of_nil in Hx|].
  simpl. apply elem_of_cons in Hx as [<-|Hx].
  - rewrite Hf. by eexists.
  - destruct (f y); [|by eexists].
    destruct (IH Hx) as [e' ->]. by eexists.
Qed.

(** X6.  An operation with an empty tag list that passes the skip policy
    and is parsed is dropped without a word: [visitOperation] returns,
    registers nothing and appends nothing, and neither the warning of a
    failed operation nor the info of a skipped one is logged; the only
    record there can be is the warning of [parseFields] about the body. *)
Theorem visitOperation_empty_tag_list this operation context s parsed :
  IOperationParser.shouldSkip operation context = Normal false →
  OperationObject.tags operation = Some [] →
  (parseOperation this operation context s).1 = Normal parsed →
  let b := {| Bindings.pattern := OperationContext.pattern context;
              Bindings.method := OperationContext.method context;
              Bindings.operationId := OperationObject.operationId operation |} in
  let s' := (visitOperation this operation context s).2 in
  (visitOperation this operation context s).1 = Normal tt
  ∧ _fields s' = _fields s
  ∧ heap s' = heap s
  ∧ optionsByResource s' = optionsByResource s
  ∧ logger s'
    = logger s ++
      match N8NINodeProperties.fromRequestBody (OperationObject.requestBody operation)
      with
      | Throw e => [LogWarn (Some b) e "Failed to parse request body"]
      | Normal _ => []
      end.
Proof.
  intros Hskip Htags Hparse b s'.
  split.
  { rewrite visitOperation_completion, _visitOperation_unfold, Hskip, Htags.
    by destruct (parseOperation this operation context s) as [[parsed0|] s1]. }
  subst s'. rewrite visitOperation_unfold. cbv zeta. fold b.
  set (s0 := (setBindings b s).2).
  rewrite _visitOperation_unfold, Hskip, Htags. simpl mapC. cbv iota.
  destruct (blind_parseOperation this operation context s0 s
              (observable_setBindings b s)) as [Hb _].
  rewrite Hparse in Hb.
  pose proof (parseOperation_state this operation context s0) as Hst.
  destruct (parseOperation this operation context s0) as [[parsed0|] s1];
    simpl in Hb, Hst; [|done].
  simpl. subst s1.
  destruct (N8NINodeProperties.fromRequestBody _); simpl;
    by rewrite ?app_nil_r.
Qed.

(** X7.  One tag that the resource parser rejects drops the whole
    operation: the inner step throws, and nothing is registered and nothing
    is appended, not even for the tags before it.  When what was thrown has
    a text, [visitOperation] returns and the failure is the last record
    logged, as a warning; when it has none, [visitOperation] throws what the
    template literal of its handler throws, and logs no such warning. *)
Theorem visitOperation_bad_tag_drops_operation this operation context s tags tag e :
  IOperationParser.shouldSkip operation context = Normal false →
  OperationObject.tags operation = Some tags →
  tag ∈ tags →
  IResourceParser.value tag = Throw e →
  let b := {| Bindings.pattern := OperationContext.pattern context;
              Bindings.method := OperationContext.method context;
              Bindings.operationId := OperationObject.operationId operation |} in
  let s' := (visitOperation this operation context s).2 in
  ∃ thrown,
    (_visitOperation this operation context s).1 = Throw thrown
    ∧ _fields s' = _fields s
    ∧ heap s' = heap s
    ∧ optionsByResource s' = optionsByResource s
    ∧ match toText thrown with
      | Normal text =>
          (visitOperation this operation context s).1 = Normal tt
          ∧ last (logger s')
            = Some (LogWarn (Some b) text "Failed to parse operation")
      | Throw raised =>
          (visitOperation this operation context s).1 = Throw raised
          ∧ Forall (λ r, ∀ b' text, r ≠ LogWarn b' text "Failed to parse operation")
                   (drop (length (logger s)) (logger s'))
      end.
Proof.
  intros Hskip Htags Htag He b s'.
  assert (Hthrow : ∃ e', (_visitOperation this operation context s).1 = Throw e').
  { rewrite _visitOperation_unfold, Hskip, Htags.
    destruct (parseOperation _ _ _ _) as [[parsed|e0] s1]; [|by eexists].
    destruct (mapC_throws IResourceParser.value tags tag e Htag He) as [e' ->].
    by eexists. }
  destruct Hthrow as [thrown Hthrow]. exists thrown.
  destruct (visitOperation_dropped this operation context s thrown Hthrow)
    as [(Hf & Ho & Hh)%observable_inv Hlog].
  by repeat split.
Qed.

(** *** What is logged *)

Lemma _visitOperation_logs this operation context s :
  ∃ new,
    logger (_visitOperation this operation context s).2 = logger s ++ new
    ∧ bindings (_visitOperation this operation context s).2 = bindings s
    ∧ (length new ≤ 1)%nat
    ∧ Forall (λ r, recordBindings r = bindings s) new.
Proof.
  rewrite _visitOperation_unfold.
  destruct (IOperationParser.shouldSkip _ _) as [[|]|].
  - eexists [_]. simpl. repeat split; [lia|]. by repeat constructor.
  - pose proof (parseOperation_state this operation context s) as Hst.
    destruct (parseOperation this operation context s) as [[parsed|e] s1];
      simpl in Hst; subst s1.
    + assert (Hs1 : ∃ new,
          logger (match N8NINodeProperties.fromRequestBody
                          (OperationObject.requestBody operation) with
                  | Normal _ => s
                  | Throw e =>
                      (log (LogWarn (bindings s) e "Failed to parse request body") s).2
                  end) = logger s ++ new
          ∧ bindings (match N8NINodeProperties.fromRequestBody
                              (OperationObject.requestBody operation) with
                      | Normal _ => s
                      | Throw e =>
                          (log (LogWarn (bindings s) e
                                  "Failed to parse request body") s).2
                      end) = bindings s
          ∧ (length new ≤ 1)%nat
          ∧ Forall (λ r, recordBindings r = bindings s) new).
      { destruct (N8NINodeProperties.fromRequestBody _).
        - exists []. rewrite app_nil_r. repeat split; [simpl; lia|constructor].
        - eexists [_]. simpl. repeat split; [lia|]. by repeat constructor. }
      destruct (OperationObject.tags _) as [tags|]; [|exact Hs1].
      destruct (mapC _ _) as [resources|]; [|exact Hs1].
      simpl. by rewrite registered_logger, registered_bindings.
    + exists []. rewrite app_nil_r. simpl. repeat split; [lia|constructor].
  - exists []. rewrite app_nil_r. simpl. repeat split; [lia|constructor].
Qed.

(** X8.  Whatever [visitOperation] logs, it logs with the log context of
    the operation it is visiting, [{pattern, method, operationId}]: at most
    two records per visit, appended to the log.  The context is still set
    when the call has returned. *)
Theorem visitOperation_logs_with_its_context this operation context s :
  let b := {| Bindings.pattern := OperationContext.pattern context;
              Bindings.method := OperationContext.method context;
              Bindings.operationId := OperationObject.operationId operation |} in
  let s' := (visitOperation this operation context s).2 in
  bindings s' = Some b
  ∧ ∃ new, logger s' = logger s ++ new
      ∧ (length new ≤ 2)%nat
      ∧ Forall (λ r, recordBindings r = Some b) new.
Proof.
  intros b s'. subst s'. rewrite visitOperation_unfold. cbv zeta. fold b.
  set (s0 := (setBindings b s).2).
  destruct (_visitOperation_logs this operation context s0)
    as (new & Hlog & Hb & Hlen & Hctx).
  destruct (_visitOperation this operation context s0) as [[[]|e] s1];
    simpl in Hlog, Hb |- *.
  - split; [exact Hb|]. exists new. split; [exact Hlog|]. split; [lia|exact Hctx].
  - destruct (toText e) as [text|raised]; simpl.
    + split; [exact Hb|].
      exists (new ++ [LogWarn (Some b) text "Failed to parse operation"]).
      rewrite Hlog, Hb, <- app_assoc. split; [done|].
      split; [rewrite length_app; simpl; lia|].
      apply Forall_app. split; [exact Hctx|]. by repeat constructor.
    + split; [exact Hb|]. exists new. split; [exact Hlog|]. split; [lia|exact Hctx].
Qed.

(** *** The aggregator as a function of the visits *)

Lemma parseOperation_option this operation context s :
  match (parseOperation this operation context s).1 with
  | Normal parsed => Normal parsed.1
  | Throw e => Throw e
  end = derivedOption operation context.
Proof.
  rewrite parseOperation_unfold. unfold derivedOption.
  destruct (IOperationParser.name _ _); [|done].
  destruct (IOperationParser.value _ _); [|done].
  destruct (IOperationParser.action _ _); [|done].
  destruct (IOperationParser.description _ _); [|done].
  destruct (Utils.replacePathVarsToParameter _); [|done].
  cbv zeta. rewrite parseFields_unfold.
  destruct (parameterFields operation); cbv zeta; [|done].
  by destruct (N8NINodeProperties.fromRequestBody _).
Qed.

Lemma visitOperation_options this operation context s :
  optionsByResource (visitOperation this operation context s).2
  = nextOptions operation context (optionsByResource s).
Proof.
  destruct (observable_inv _ _ (visitOperation_observable this operation context s))
    as (_ & -> & _).
  set (s0 := (setBindings _ s).2).
  unfold nextOptions. rewrite <- (parseOperation_option this operation context s0).
  rewrite _visitOperation_unfold.
  destruct (IOperationParser.shouldSkip _ _) as [[|]|]; [done| |done].
  destruct (silent_parseOperation this operation context s0)
    as [(_ & Ho & _)%observable_inv _].
  destruct (parseOperation this operation context s0) as [[parsed|e] s1];
    simpl in Ho |- *; [|done].
  destruct (OperationObject.tags _) as [tags|]; [|done].
  destruct (mapC _ _) as [resources|]; [|done].
  simpl. by rewrite registered_options, Ho.
Qed.

(** How a visit ends depends on the operation alone, not on the class of
    the collector nor on its state. *)
Lemma _visitOperation_completion_class this1 this2 operation context s1 s2 :
  (_visitOperation this1 operation context s1).1
  = (_visitOperation this2 operation context s2).1.
Proof.
  rewrite !_visitOperation_unfold.
  destruct (IOperationParser.shouldSkip _ _) as [[|]|]; [done| |done].
  pose proof (parseOperation_option this1 operation context s1) as H1.
  pose proof (parseOperation_option this2 operation context s2) as H2.
  destruct (parseOperation this1 operation context s1) as [[p1|e1] t1],
           (parseOperation this2 operation context s2) as [[p2|e2] t2];
    simpl in H1, H2; rewrite <- H1 in H2; try discriminate.
  - destruct (OperationObject.tags _) as [tags|]; [|done].
    by destruct (mapC _ _).
  - by injection H2 as ->.
Qed.

Lemma visitOperation_completion_class this1 this2 operation context s1 s2 :
  (visitOperation this1 operation context s1).1
  = (visitOperation this2 operation context s2).1.
Proof.
  rewrite !visitOperation_completion.
  by rewrite (_visitOperation_completion_class this1 this2 operation context s1 s2).
Qed.

Lemma walk_options_class this1 this2 visits s1 s2 :
  optionsByResource s1 = optionsByResource s2 →
  optionsByResource (walk this1 visits s1).2
  = optionsByResource (walk this2 visits s2).2.
Proof.
  revert s1 s2. induction visits as [|[operation context] visits IH];
    intros s1 s2 Hs; [done|].
  rewrite !walk_step.
  pose proof (visitOperation_completion_class this1 this2 operation context s1 s2) as Hc.
  pose proof (visitOperation_options this1 operation context s1) as H1.
  pose proof (visitOperation_options this2 operation context s2) as H2.
  destruct (visitOperation this1 operation context s1) as [[[]|e1] t1],
           (visitOperation this2 operation context s2) as [[[]|e2] t2];
    simpl in Hc, H1, H2; try discriminate; simpl.
  - apply IH. congruence.
  - congruence.
Qed.

(** X9.  The aggregator that a traversal leaves is a function of the
    aggregator it started with and of the operations alone: the fold of
    [nextOptions] over the operations that were visited, which are all of
    them when the traversal has come to its end.  The class of the
    collector, the heap and the logger have no part in it, so the subclass
    [OperationsCollector] yields the same [operations] as
    [BaseOperationsCollector]. *)
Theorem walk_options_closed_form this visits s :
  (∃ visited,
     visited `prefix_of` visits
     ∧ optionsByResource (walk this visits s).2
       = foldl (λ m v, nextOptions v.1 v.2 m) (optionsByResource s) visited
     ∧ ((walk this visits s).1 = Normal tt → visited = visits))
  ∧ (∀ operation context s0,
       optionsByResource (visitOperation this operation context s0).2
       = nextOptions operation context (optionsByResource s0))
  ∧ operations (walk OperationsCollector visits s).2
    = operations (walk BaseOperationsCollector visits s).2.
Proof.
  split; [|split; [apply visitOperation_options|]].
  - revert s. induction visits as [|[operation context] visits IH]; intros s.
    + by exists [].
    + rewrite walk_step.
      pose proof (visitOperation_options this operation context s) as Ho.
      destruct (visitOperation this operation context s) as [[[]|e] s'];
        simpl in Ho.
      * destruct (IH s') as (visited & Hpre & Hfold & Hall).
        exists ((operation, context) :: visited).
        split; [by apply prefix_cons|]. split.
        -- simpl. by rewrite Hfold, Ho.
        -- intros Hret. by rewrite (Hall Hret).
      * exists [(operation, context)]. split; [|split; [|done]].
        -- by apply prefix_cons, prefix_nil.
        -- simpl. by rewrite Ho.
  - unfold operations.
    by rewrite (walk_options_class OperationsCollector BaseOperationsCollector
                  visits s s eq_refl).
Qed.

(** *** Invariants of the traversal *)

Lemma visitOperation_appends this operation context s :
  ∃ refs objs,
    _fields (visitOperation this operation context s).2 = _fields s ++ refs
    ∧ heap (visitOperation this operation context s).2 = heap s ++ objs.
Proof.
  destruct (visitOperation_effect this operation context s)
    as (option & fs & resources & (Hf & _ & Hh)%observable_inv).
  rewrite Hf, Hh, registered_fields, registered_heap. by eexists _, _.
Qed.

Lemma walk_appends this visits s :
  ∃ refs objs,
    _fields (walk this visits s).2 = _fields s ++ refs
    ∧ heap (walk this visits s).2 = heap s ++ objs.
Proof.
  revert visits s.
  apply (walk_invariant
           (λ s s', ∃ refs objs,
              _fields s' = _fields s ++ refs ∧ heap s' = heap s ++ objs)).
  - intros s. exists [], []. by rewrite !app_nil_r.
  - intros s1 s2 s3 (refs1 & objs1 & Hf1 & Hh1) (refs2 & objs2 & Hf2 & Hh2).
    exists (refs1 ++ refs2), (objs1 ++ objs2).
    by rewrite Hf2, Hh2, Hf1, Hh1, !app_assoc.
  - intros. apply visitOperation_appends.
Qed.

(** X10.  A traversal only appends: the [_fields] array and the heap it
    started with are prefixes of the ones it leaves, and the fields that
    were in the output before the traversal are in it afterwards, at the
    same positions and unchanged. *)
Theorem walk_only_appends this visits s :
  wf s →
  let s' := (walk this visits s).2 in
  _fields s `prefix_of` _fields s'
  ∧ heap s `prefix_of` heap s'
  ∧ objects s' (take (length (fields s)) (fields s')) = objects s (fields s)
  ∧ wf s'.
Proof.
  intros Hwf s'. destruct (walk_appends this visits s) as (refs & objs & Hf & Hh).
  fold s' in Hf, Hh. split; [by exists refs|]. split; [by exists objs|].
  split; [|by apply walk_wf].
  unfold objects, fields. rewrite Hf, Hh, take_app_length. by apply objects_old.
Qed.

Lemma tight_registered option fs s r : tight s → tight (registered option fs s r).
Proof.
  unfold tight, registered. simpl. intros ->.
  by rewrite length_app, length_fmap, seq_app.
Qed.

Lemma tight_foldl_registered option fs resources s :
  tight s → tight (foldl (registered option fs) s resources).
Proof.
  revert s. induction resources as [|r resources IH]; intros s Ht; simpl; [done|].
  by apply IH, tight_registered.
Qed.

Lemma walk_tight this visits s : tight s → tight (walk this visits s).2.
Proof.
  revert visits s. apply (walk_invariant (λ s s', tight s → tight s')); [done|auto|].
  intros operation context s Ht.
  destruct (visitOperation_effect this operation context s)
    as (option & fs & resources & (Hf & _ & Hh)%observable_inv).
  unfold tight. rewrite Hf, Hh. by apply tight_foldl_registered.
Qed.

Lemma objects_all (s : Collector) : objects s (seq 0 (length (heap s))) = heap s.
Proof. apply (objects_fresh [] (heap s)). Qed.

(** X11.  In every state that a fresh collector reaches, the [_fields]
    array refers to each allocated field object exactly once: its entries
    are pairwise distinct objects, none is dangling, and the output has as
    many fields as there are objects. *)
Theorem fresh_walk_fields_are_distinct_objects this visits log :
  let s := (walk this visits (newCollector log)).2 in
  fields s = seq 0 (length (heap s))
  ∧ NoDup (fields s)
  ∧ objects s (fields s) = heap s
  ∧ length (objects s (fields s)) = length (fields s).
Proof.
  intros s. assert (Ht : tight s) by (by apply walk_tight).
  unfold tight in Ht. unfold fields. rewrite Ht.
  split; [done|]. split; [apply NoDup_seq|].
  rewrite objects_all. split; [done|]. by rewrite length_seq.
Qed.

Lemma backed_registered option fs s r : backed s → backed (registered option fs s r).
Proof.
  unfold backed, registered. simpl. intros Hb. apply Forall_app. split.
  - eapply Forall_impl; [exact Hb|]. simpl.
    intros field (resource & option' & Hd & Hin).
    exists resource, option'. split; [done|].
    rewrite get_add. apply elem_of_app. by left.
  - apply Forall_fmap, Forall_true. intros field. simpl.
    exists r, option. split; [done|].
    rewrite get_add, decide_True by done. apply elem_of_app. right. by left.
Qed.

Lemma backed_foldl_registered option fs resources s :
  backed s → backed (foldl (registered option fs) s resources).
Proof.
  revert s. induction resources as [|r resources IH]; intros s Hb; simpl; [done|].
  by apply IH, backed_registered.
Qed.

Lemma walk_backed this visits s : backed s → backed (walk this visits s).2.
Proof.
  revert visits s. apply (walk_invariant (λ s s', backed s → backed s')); [done|auto|].
  intros operation context s Hb.
  destruct (visitOperation_effect this operation context s)
    as (option & fs & resources & (_ & Ho & Hh)%observable_inv).
  unfold backed. rewrite Ho, Hh. by apply backed_foldl_registered.
Qed.

(** X12.  In every state that a fresh collector reaches, every field of the
    output is shown for one resource and one operation, and the aggregator
    holds, under that resource, an option with that operation as its name:
    no field is left without the option that makes it visible. *)
Theorem fresh_walk_fields_are_backed_by_options this visits log :
  let s := (walk this visits (newCollector log)).2 in
  Forall (λ field,
            ∃ resource option,
              INodeProperties.displayOptions field
              = Some {| DisplayOptions.resource := [resource];
                        DisplayOptions.operation :=
                          Some [INodePropertyOptions.name option] |}
              ∧ option ∈ OptionsByResourceMap.get resource (optionsByResource s))
         (objects s (fields s)).
Proof.
  intros s.
  assert (Ht : tight s) by (by apply walk_tight).
  assert (Hb : backed s) by (apply walk_backed; constructor).
  unfold tight in Ht. unfold fields. rewrite Ht, objects_all. exact Hb.
Qed.

Lemma add_keys_prefix resource option (m : OptionsByResourceMap.t) :
  m.*1 `prefix_of` (OptionsByResourceMap.add resource option m).*1.
Proof.
  rewrite add_keys. case_decide; [done|]. by apply prefix_app_r.
Qed.

Lemma walk_keys_prefix this visits s :
  (optionsByResource s).*1 `prefix_of` (optionsByResource (walk this visits s).2).*1.
Proof.
  revert visits s.
  apply (walk_invariant
           (λ s s', (optionsByResource s).*1 `prefix_of` (optionsByResource s').*1)).
  - done.
  - intros s1 s2 s3 H12 H23. by etrans.
  - intros operation context s.
    destruct (visitOperation_effect this operation context s)
      as (option & fs & resources & (_ & -> & _)%observable_inv).
    rewrite registered_options. generalize (optionsByResource s).
    induction resources as [|r resources IHr]; intros m; simpl; [done|].
    etrans; [apply add_keys_prefix|apply IHr].
Qed.

(** X13.  Once [operations] returns, it returns after every further
    traversal: resources are never removed, the selector of a resource keeps
    its position, and new resources come after it. *)
Theorem operations_stays_available this visits s ops :
  operations s = Normal ops →
  ∃ ops', operations (walk this visits s).2 = Normal ops'
    ∧ (length ops ≤ length ops')%nat
    ∧ ∀ i field, ops !! i = Some field →
        ∃ field', ops' !! i = Some field'
          ∧ INodeProperties.displayOptions field' = INodeProperties.displayOptions field.
Proof.
  unfold operations, OptionsByResourceMap.size, OptionsByResourceMap.entries.
  destruct (walk_keys_prefix this visits s) as [keys Hkeys].
  set (m := optionsByResource s) in *.
  set (m' := optionsByResource (walk this visits s).2) in *.
  assert (Hlen : (length m ≤ length m')%nat).
  { rewrite <- (length_fmap fst m), <- (length_fmap fst m'), Hkeys, length_app. lia. }
  clearbody m m'.
  case_decide as Hz; [done|]. intros [= <-].
  rewrite decide_False by lia. eexists. split; [reflexivity|].
  rewrite !operations_loop. simpl. split; [rewrite !length_fmap; exact Hlen|].
  intros i field Hi.
  apply list_lookup_fmap_Some in Hi as ([r os] & -> & Hm).
  assert (Hk : m'.*1 !! i = Some r).
  { rewrite Hkeys. apply lookup_app_l_Some.
    apply list_lookup_fmap_Some. by exists (r, os). }
  apply list_lookup_fmap_Some in Hk as ([r' os'] & Hr & Hm'). simpl in Hr. subst r'.
  exists (operationSelector r os'). split; [|done].
  apply list_lookup_fmap_Some. by exists (r, os').
Qed.

(** *** The subclass, end to end *)

Lemma visitOperation_registered_state
    this operation context s option operationFields tags resources :
  IOperationParser.shouldSkip operation context = Normal false →
  (parseOperation this operation context s).1 = Normal (option, operationFields) →
  OperationObject.tags operation = Some tags →
  mapC IResourceParser.value tags = Normal resources →
  observable (visitOperation this operation context s).2
  = observable (foldl (registered option operationFields) s resources).
Proof.
  intros Hskip Hparse Htags Hres.
  rewrite visitOperation_unfold. cbv zeta.
  set (s0 := (setBindings _ s).2).
  rewrite _visitOperation_unfold, Hskip, Htags, Hres.
  destruct (blind_parseOperation this operation context s0 s
              (observable_setBindings _ s)) as [Hb _].
  destruct (silent_parseOperation this operation context s0) as [Hs _].
  rewrite Hparse in Hb.
  destruct (parseOperation _ _ _ s0) as [[parsed|] s1]; simpl in Hb, Hs; [|done].
  injection Hb as ->. simpl.
  apply observable_foldl_registered. exact Hs.
Qed.

Lemma objects_registered option fs resources s s' :
  wf s →
  observable s' = observable (foldl (registered option fs) s resources) →
  objects s' (_fields s')
  = objects s (_fields s)
    ++ (resources ≫= λ r,
          INodeProperties.setDisplayOptions
            (shown r (INodePropertyOptions.name option)) <$> fs).
Proof.
  intros Hwf (Hf & _ & Hh)%observable_inv.
  rewrite registered_fields in Hf. rewrite registered_heap in Hh.
  unfold objects. rewrite Hf, Hh, omap_app. f_equal; [by apply objects_old|].
  set (new := resources ≫= _).
  assert (Hlen : length new = length resources * length fs).
  { subst new. clear. induction resources as [|r resources IH]; csimpl; [done|].
    by rewrite length_app, IH, length_fmap. }
  rewrite <- Hlen. apply objects_fresh.
Qed.

(** X15.  With the subclass [OperationsCollector], every copy that a visit
    appends to the output starts with the notice of the endpoint, shown like
    the fields after it for the resource of the copy and the name of the
    option; the fields after it are those of the base class. *)
Theorem OperationsCollector_visit_puts_notice_first
    operation context s option baseFields tags resources :
  wf s →
  IOperationParser.shouldSkip operation context = Normal false →
  (BaseOperationsCollector_parseOperation operation context s).1
  = Normal (option, baseFields) →
  OperationObject.tags operation = Some tags →
  mapC IResourceParser.value tags = Normal resources →
  let s' := (visitOperation OperationsCollector operation context s).2 in
  let base := (visitOperation BaseOperationsCollector operation context s).2 in
  let tag r := INodeProperties.setDisplayOptions
                 (shown r (INodePropertyOptions.name option)) in
  objects s' (fields s')
  = objects s (fields s)
    ++ (resources ≫= λ r, tag r (operationNotice context) :: (tag r <$> baseFields))
  ∧ objects base (fields base)
    = objects s (fields s) ++ (resources ≫= λ r, tag r <$> baseFields)
  ∧ optionsByResource s' = optionsByResource base.
Proof.
  intros Hwf Hskip Hparse Htags Hres s' base tag.
  assert (Hsub : (parseOperation OperationsCollector operation context s).1
                 = Normal (option, operationNotice context :: baseFields)).
  { simpl. unfold OperationsCollector_parseOperation, mbind, Comp_bind.
    by destruct (BaseOperationsCollector_parseOperation operation context s)
      as [[[o fs]|e] s1]; simplify_eq/=. }
  pose proof (visitOperation_registered_state OperationsCollector _ _ _ _ _ _ _
                Hskip Hsub Htags Hres) as Hs'.
  pose proof (visitOperation_registered_state BaseOperationsCollector _ _ _ _ _ _ _
                Hskip Hparse Htags Hres) as Hbase.
  fold s' in Hs'. fold base in Hbase.
  split; [|split].
  - unfold fields. by rewrite (objects_registered _ _ _ s s' Hwf Hs').
  - unfold fields. by rewrite (objects_registered _ _ _ s base Hwf Hbase).
  - apply observable_inv in Hs' as (_ & -> & _).
    apply observable_inv in Hbase as (_ & -> & _).
    by rewrite !registered_options.
Qed.

End CollectorEdges.

(** ** The claims on the Petstore document *)

Import Petstore.

Example toUpperCase_post : toUpperCase "post" = "POST".
Proof. reflexivity. Qed.

(** The first scenario of the specification: [name] directly, [limit] in
    the collection, nothing for the absent body. *)
Example parseFields_createPet :
  parseFields createPet postPets (newCollector []) = (Normal createPetFields, newCollector []).
Proof. reflexivity. Qed.

Example parseOperation_createPet :
  (parseOperation OperationsCollector createPet postPets (newCollector [])).1
  = Normal (createPetOption, operationNotice postPets :: createPetFields).
Proof. reflexivity. Qed.

Example add_keeps_first_seen_order :
  OptionsByResourceMap.add "pet" createPetOption
    (OptionsByResourceMap.add "store" createPetOption
       (OptionsByResourceMap.add "pet" createPetOption OptionsByResourceMap.empty))
  = [("pet", [createPetOption; createPetOption]); ("store", [createPetOption])].
Proof. reflexivity. Qed.

Example operations_of_fresh_collector :
  operations (newCollector [])
  = Throw (Printable "Error: No operations found in OpenAPI document").
Proof. reflexivity. Qed.

Example walk_petstore :
  let s := (walk BaseOperationsCollector
              [(createPet, postPets); (retired, postPets); (unnamed, postPets);
               (createPetUntagged, postPets); (createPetTwice, postPets)]
              (newCollector [])).2 in
  fields s = [0; 1; 2; 3; 4; 5]
  ∧ optionsByResource s
    = [("pet", [createPetOption; createPetOption]); ("store", [createPetOption])]
  ∧ length (logger s) = 3.
Proof. vm_compute. done. Qed.

(** Witness of X16: [createPetTwice], tagged [pet] and [store], gives four
    fresh field objects, two per resource, shown for [Create Pet] under their
    resource, and the option once under each. *)
Lemma visitOperation_registers_under_each_resource_witness :
  let s := newCollector [] in
  let s' := (visitOperation BaseOperationsCollector createPetTwice postPets s).2 in
  (wf s
   ∧ IOperationParser.shouldSkip createPetTwice postPets = Normal false
   ∧ (parseOperation BaseOperationsCollector createPetTwice postPets s).1
     = Normal (createPetOption, createPetFields)
   ∧ OperationObject.tags createPetTwice = Some ["pet"; "store"]
   ∧ mapC IResourceParser.value ["pet"; "store"] = Normal ["pet"; "store"])
  ∧ fields s' = [0; 1; 2; 3]
  ∧ objects s' (fields s')
    = (INodeProperties.setDisplayOptions (shown "pet" "Create Pet") <$> createPetFields)
      ++ (INodeProperties.setDisplayOptions (shown "store" "Create Pet") <$> createPetFields)
  ∧ INodeProperties.displayOptions <$> objects s' (fields s')
    = [Some {| DisplayOptions.resource := ["pet"];
               DisplayOptions.operation := Some ["Create Pet"] |};
       Some {| DisplayOptions.resource := ["pet"];
               DisplayOptions.operation := Some ["Create Pet"] |};
       Some {| DisplayOptions.resource := ["store"];
               DisplayOptions.operation := Some ["Create Pet"] |};
       Some {| DisplayOptions.resource := ["store"];
               DisplayOptions.operation := Some ["Create Pet"] |}]
  ∧ OptionsByResourceMap.get "pet" (optionsByResource s') = [createPetOption]
  ∧ OptionsByResourceMap.get "store" (optionsByResource s') = [createPetOption].
Proof.
  intros s s'.
  assert (H1 : wf s) by (vm_compute; constructor).
  assert (H2 : IOperationParser.shouldSkip createPetTwice postPets = Normal false)
    by reflexivity.
  assert (H3 : (parseOperation BaseOperationsCollector createPetTwice postPets s).1
               = Normal (createPetOption, createPetFields))
    by (vm_compute; reflexivity).
  assert (H4 : OperationObject.tags createPetTwice = Some ["pet"; "store"])
    by reflexivity.
  assert (H5 : mapC IResourceParser.value ["pet"; "store"] = Normal ["pet"; "store"])
    by reflexivity.
  split; [by repeat split|].
  destruct (visitOperation_registers_under_each_resource
              BaseOperationsCollector createPetTwice postPets s
              createPetOption createPetFields ["pet"; "store"] ["pet"; "store"]
              H1 H2 H3 H4 H5) as (_ & _ & _ & Hget & Hf & Hobj & _).
  fold s' in Hget, Hf, Hobj.
  split; [exact Hf|]. split; [exact Hobj|].
  split; [by rewrite Hobj|].
  split; [exact (Hget "pet")|exact (Hget "store")].
Defined.

(** C1.  The visibility condition names the operation by the name of its
    option, where the claim has its value.  [createPet] passes the skip
    policy and has the one tag [pet]; its option has the name [Create Pet]
    and the value [createPet].  The visit registers the option once under
    [pet] and appends one copy of the two fields, and both copies carry
    [{resource: [pet], operation: [Create Pet]}]: none of them carries the
    condition of the claim, [{resource: [pet], operation: [createPet]}],
    although [createPet] is the value that the selector of [pet] offers. *)
Theorem visitOperation_shows_name_not_value :
  let s := newCollector [] in
  let s' := (visitOperation BaseOperationsCollector createPet postPets s).2 in
  (IOperationParser.shouldSkip createPet postPets = Normal false
   ∧ OperationObject.tags createPet = Some ["pet"]
   ∧ (parseOperation BaseOperationsCollector createPet postPets s).1
     = Normal (createPetOption, createPetFields)
   ∧ INodePropertyOptions.name createPetOption = "Create Pet"
   ∧ INodePropertyOptions.value createPetOption = "createPet")
  ∧ (visitOperation BaseOperationsCollector createPet postPets s).1 = Normal tt
  ∧ optionsByResource s' = [("pet", [createPetOption])]
  ∧ operations s' = Normal [operationSelector "pet" [createPetOption]]
  ∧ fields s' = [0; 1]
  ∧ INodeProperties.name <$> objects s' (fields s')
    = INodeProperties.name <$> createPetFields
  ∧ INodeProperties.displayOptions <$> objects s' (fields s')
    = [Some {| DisplayOptions.resource := ["pet"];
               DisplayOptions.operation := Some ["Create Pet"] |};
       Some {| DisplayOptions.resource := ["pet"];
               DisplayOptions.operation := Some ["Create Pet"] |}]
  ∧ Forall (λ field,
              INodeProperties.displayOptions field
              ≠ Some {| DisplayOptions.resource := ["pet"];
                        DisplayOptions.operation :=
                          Some [INodePropertyOptions.value createPetOption] |})
           (objects s' (fields s')).
Proof.
  intros s s'.
  split; [by repeat split|].
  split; [vm_compute; reflexivity|].
  split; [vm_compute; reflexivity|].
  split; [vm_compute; reflexivity|].
  split; [vm_compute; reflexivity|].
  split; [vm_compute; reflexivity|].
  split; [vm_compute; reflexivity|].
  vm_compute. repeat constructor; discriminate.
Qed.

(** C2.  An exception escapes [visitOperation] when what the inner step
    throws has no text.  With an operation parser whose [name] throws a
    Symbol for [unnamed], the inner step throws that Symbol; the handler of
    [visitOperation] evaluates [`${error}`], which throws a TypeError, and
    that TypeError leaves [visitOperation]: no warning is logged, and a
    traversal that meets [unnamed] ends there, so that [createPet] after it
    is never visited and the aggregator stays empty, where [createPet] alone
    is registered under [pet]. *)
Theorem visitOperation_lets_symbol_escape :
  let s := newCollector [] in
  let visit := visitOperation (operationParser := PetstoreEdges.symbolThrowingParser)
                 BaseOperationsCollector in
  let traverse := walk (operationParser := PetstoreEdges.symbolThrowingParser)
                    BaseOperationsCollector in
  IOperationParser.name (t := PetstoreEdges.symbolThrowingParser) unnamed postPets
  = Throw aSymbol
  ∧ (_visitOperation (operationParser := PetstoreEdges.symbolThrowingParser)
       BaseOperationsCollector unnamed postPets s).1
    = Throw aSymbol
  ∧ toText aSymbol
    = Throw (Printable "TypeError: Cannot convert a Symbol value to a string")
  ∧ (visit unnamed postPets s).1
    = Throw (Printable "TypeError: Cannot convert a Symbol value to a string")
  ∧ logger (visit unnamed postPets s).2 = []
  ∧ (traverse [(unnamed, postPets); (createPet, postPets)] s).1
    = Throw (Printable "TypeError: Cannot convert a Symbol value to a string")
  ∧ optionsByResource (traverse [(unnamed, postPets); (createPet, postPets)] s).2 = []
  ∧ fields (traverse [(unnamed, postPets); (createPet, postPets)] s).2 = []
  ∧ (traverse [(createPet, postPets)] s).1 = Normal tt
  ∧ optionsByResource (traverse [(createPet, postPets)] s).2
    = [("pet", [createPetOption])]
  ∧ fields (traverse [(createPet, postPets)] s).2 = [0; 1].
Proof.
  intros s visit traverse.
  repeat split; vm_compute; reflexivity.
Qed.

(** Witness of X17: [unnamed], which the namer rejects with an Error,
    registers nothing, and [createPet] after it is processed as if it came
    first. *)
Lemma visitOperation_isolates_failure_witness :
  let s := newCollector [] in
  let s' := (visitOperation BaseOperationsCollector unnamed postPets s).2 in
  ((_visitOperation BaseOperationsCollector unnamed postPets s).1
   = Throw (Printable "Error: operation without summary")
   ∧ toText (Printable "Error: operation without summary")
     = Normal "Error: operation without summary")
  ∧ (visitOperation BaseOperationsCollector unnamed postPets s).1 = Normal tt
  ∧ _fields s' = []
  ∧ optionsByResource s' = []
  ∧ last (logger s')
    = Some (LogWarn (Some {| Bindings.pattern := "/pets";
                             Bindings.method := "post";
                             Bindings.operationId := Some "unnamed" |})
                    "Error: operation without summary"
                    "Failed to parse operation")
  ∧ observable (walk BaseOperationsCollector
                  [(unnamed, postPets); (createPet, postPets)] s).2
    = observable (walk BaseOperationsCollector [(createPet, postPets)] s).2.
Proof.
  intros s s'.
  assert (H : (_visitOperation BaseOperationsCollector unnamed postPets s).1
              = Throw (Printable "Error: operation without summary"))
    by (vm_compute; reflexivity).
  assert (H' : toText (Printable "Error: operation without summary")
               = Normal "Error: operation without summary") by reflexivity.
  split; [by split|].
  destruct (visitOperation_isolates_failure
              BaseOperationsCollector unnamed postPets s
              (Printable "Error: operation without summary")
              "Error: operation without summary" [(createPet, postPets)] H H')
    as (Hret & Hf & _ & Ho & _ & _ & Hlog & _ & _ & Hwalk).
  fold s' in Hf, Ho, Hlog.
  split; [exact Hret|]. split; [exact Hf|]. split; [exact Ho|].
  split; [exact Hlog|exact Hwalk].
Defined.

(** Witness of C3: after [createPetTwice] there are two resources and two
    selectors, [pet] first; a fresh collector throws. *)
Lemma operations_throws_iff_no_resource_witness :
  let s := (walk BaseOperationsCollector [(createPetTwice, postPets)]
              (newCollector [])).2 in
  OptionsByResourceMap.size (optionsByResource s) ≠ 0
  ∧ (∃ ops, operations s = Normal ops ∧ length ops = 2
       ∧ ops !! 0 = Some (operationSelector "pet" [createPetOption]))
  ∧ (∃ e, operations (newCollector []) = Throw e).
Proof.
  intros s.
  assert (H : OptionsByResourceMap.size (optionsByResource s) ≠ 0)
    by (vm_compute; discriminate).
  split; [exact H|].
  destruct (operations_throws_iff_no_resource s) as [_ Hsome].
  destruct (Hsome H) as (ops & Hops & Hlen & Hnth).
  destruct (Hnth 0 "pet" [createPetOption] eq_refl) as (field & Hfield & -> & _).
  split.
  - exists ops. split; [exact Hops|]. split; [exact Hlen|exact Hfield].
  - apply (operations_throws_iff_no_resource (newCollector [])). reflexivity.
Defined.

(** Witness of C4: [createPetWithBody] has the parameters [name] (required)
    and [limit] and the body fields [kind] (required) and [age]. *)
Lemma parseFields_order_and_coverage_witness :
  parameterFields createPetWithBody
  = Normal [textField "name" (Some true); textField "limit" (Some false)]
  ∧ (parseFields createPetWithBody postPets (newCollector [])).1
    = Normal [textField "name" (Some true);
              additionalFieldsOption [textField "limit" (Some false)];
              textField "kind" (Some true);
              additionalBodyFieldsOption [textField "age" (Some false)]].
Proof.
  assert (H : parameterFields createPetWithBody
              = Normal [textField "name" (Some true); textField "limit" (Some false)])
    by reflexivity.
  split; [exact H|].
  destruct (parseFields_order_and_coverage
              createPetWithBody postPets (newCollector []) _ H) as (_ & _ & Hbody).
  exact (proj1 Hbody).
Defined.

(** Counterexample to C4 as stated: the parameters of [brokenParameters]
    make [fromParameters] throw; it is called outside the [try], so
    [parseFields] throws what it threw and returns no field list. *)
Lemma parseFields_throws_with_the_parameters :
  parameterFields PetstoreEdges.brokenParameters = Throw "Error: not an object"
  ∧ parseFields PetstoreEdges.brokenParameters postPets (newCollector [])
    = (Throw (Printable "Error: not an object"), newCollector [])
  ∧ ¬ ∃ fields,
        (parseFields PetstoreEdges.brokenParameters postPets (newCollector [])).1
        = Normal fields.
Proof.
  split; [reflexivity|]. split; [reflexivity|].
  intros [fields H]. vm_compute in H. discriminate H.
Qed.

(** Witness of C5: [createPetMalformed], the scenario of the specification. *)
Lemma parseFields_survives_body_failure_witness :
  (parameterFields createPetMalformed
   = Normal [textField "name" (Some true); textField "limit" (Some false)]
   ∧ N8NINodeProperties.fromRequestBody (OperationObject.requestBody createPetMalformed)
     = Throw "Error: unsupported request body")
  ∧ (parseFields createPetMalformed postPets (newCollector [])).1
    = Normal (createPetFields ++ [bodyNotice postPets])
  ∧ INodeProperties.displayName (bodyNotice postPets)
    = "POST /pets<br/><br/>There's no body available for request, kindly use HTTP Request node to send body".
Proof.
  assert (H1 : parameterFields createPetMalformed
               = Normal [textField "name" (Some true); textField "limit" (Some false)])
    by reflexivity.
  assert (H2 : N8NINodeProperties.fromRequestBody
                 (OperationObject.requestBody createPetMalformed)
               = Throw "Error: unsupported request body")
    by reflexivity.
  split; [by split|].
  destruct (parseFields_survives_body_failure
              createPetMalformed postPets (newCollector []) _ _ H1 H2)
    as (s' & Hrun & Htext & _).
  split; [by rewrite Hrun|exact Htext].
Defined.

(** Witness of C6: [retired], which is deprecated. *)
Lemma visitOperation_skips_witness :
  let s := newCollector [] in
  IOperationParser.shouldSkip retired postPets = Normal true
  ∧ ∃ s', visitOperation OperationsCollector retired postPets s = (Normal tt, s')
      ∧ _fields s' = [] ∧ optionsByResource s' = []
      ∧ logger s'
        = [LogInfo (Some {| Bindings.pattern := "/pets";
                            Bindings.method := "post";
                            Bindings.operationId := Some "retired" |})
                   "Skipping operation"].
Proof.
  intros s.
  assert (H : IOperationParser.shouldSkip retired postPets = Normal true)
    by reflexivity.
  split; [exact H|].
  destruct (visitOperation_skips OperationsCollector retired postPets s H)
    as (s' & Hrun & Hf & _ & Ho & _ & _ & Hlog).
  exists s'. split; [exact Hrun|]. split; [exact Hf|]. split; [exact Ho|exact Hlog].
Defined.

(** Witness of C7: the routing of [createPet] is [POST] and [=/pets]. *)
Lemma parseOperation_binds_routing_witness :
  ∃ fs s1,
    parseOperation OperationsCollector createPet postPets (newCollector [])
    = (Normal (createPetOption, fs), s1)
    ∧ INodePropertyOptions.routing createPetOption
      = {| Routing.method := "POST"; Routing.url := "=/pets" |}.
Proof.
  eexists _, _.
  assert (H : parseOperation OperationsCollector createPet postPets (newCollector [])
              = (Normal (createPetOption, operationNotice postPets :: createPetFields),
                 newCollector []))
    by (vm_compute; reflexivity).
  split; [exact H|].
  destruct (parseOperation_binds_routing _ _ _ _ _ _ _ H) as [(url & Hurl & Hr) _].
  injection Hurl as <-. exact Hr.
Defined.

(** Counterexample to C7 as stated: at [createPet] the pattern [/pets] is
    rewritten to itself, and the url of the option is [=/pets]. *)
Lemma parseOperation_url_has_equals_sign :
  ∃ option fs s1,
    parseOperation BaseOperationsCollector createPet postPets (newCollector [])
    = (Normal (option, fs), s1)
    ∧ Utils.replacePathVarsToParameter (OperationContext.pattern postPets)
      = Normal "/pets"
    ∧ Routing.url (INodePropertyOptions.routing option) = "=/pets"
    ∧ Routing.url (INodePropertyOptions.routing option) ≠ "/pets".
Proof.
  exists createPetOption, createPetFields, (newCollector []).
  split; [vm_compute; reflexivity|]. split; [reflexivity|].
  split; [reflexivity|]. simpl. discriminate.
Qed.



(** ** The further properties on the Petstore document *)

(** Witness of X6: [createPetNowhere], with its empty tag list, leaves a
    fresh collector as it was, log included. *)
Lemma visitOperation_empty_tag_list_witness :
  let s := newCollector [] in
  let s' := (visitOperation BaseOperationsCollector
               PetstoreEdges.createPetNowhere postPets s).2 in
  (IOperationParser.shouldSkip PetstoreEdges.createPetNowhere postPets = Normal false
   ∧ OperationObject.tags PetstoreEdges.createPetNowhere = Some []
   ∧ (parseOperation BaseOperationsCollector PetstoreEdges.createPetNowhere postPets s).1
     = Normal (createPetOption, createPetFields))
  ∧ _fields s' = [] ∧ optionsByResource s' = [] ∧ logger s' = [].
Proof.
  intros s s'.
  assert (H1 : IOperationParser.shouldSkip PetstoreEdges.createPetNowhere postPets
               = Normal false) by reflexivity.
  assert (H2 : OperationObject.tags PetstoreEdges.createPetNowhere = Some [])
    by reflexivity.
  assert (H3 : (parseOperation BaseOperationsCollector
                  PetstoreEdges.createPetNowhere postPets s).1
               = Normal (createPetOption, createPetFields))
    by (vm_compute; reflexivity).
  split; [by repeat split|].
  destruct (visitOperation_empty_tag_list
              BaseOperationsCollector PetstoreEdges.createPetNowhere postPets s
              _ H1 H2 H3) as (_ & Hf & _ & Ho & Hlog).
  fold s' in Hf, Ho, Hlog.
  split; [exact Hf|]. split; [exact Ho|exact Hlog].
Defined.

(** Witness of X7: with a resource parser that rejects the empty tag with
    an Error, [createPetBadTag] is not registered under [pet] either, and
    the warning is logged. *)
Lemma visitOperation_bad_tag_drops_operation_witness :
  let s := newCollector [] in
  let s' := (visitOperation (resourceParser := PetstoreEdges.strictResourceParser)
               BaseOperationsCollector PetstoreEdges.createPetBadTag postPets s).2 in
  (IOperationParser.shouldSkip PetstoreEdges.createPetBadTag postPets = Normal false
   ∧ OperationObject.tags PetstoreEdges.createPetBadTag = Some ["pet"; ""]
   ∧ "" ∈ ["pet"; ""]
   ∧ IResourceParser.value (t := PetstoreEdges.strictResourceParser) ""
     = Throw (Printable "Error: empty tag"))
  ∧ (visitOperation (resourceParser := PetstoreEdges.strictResourceParser)
       BaseOperationsCollector PetstoreEdges.createPetBadTag postPets s).1
    = Normal tt
  ∧ last (logger s')
    = Some (LogWarn (Some {| Bindings.pattern := "/pets";
                             Bindings.method := "post";
                             Bindings.operationId :=
                               OperationObject.operationId
                                 PetstoreEdges.createPetBadTag |})
                    "Error: empty tag" "Failed to parse operation")
  ∧ _fields s' = [] ∧ optionsByResource s' = [].
Proof.
  intros s s'.
  assert (H1 : IOperationParser.shouldSkip PetstoreEdges.createPetBadTag postPets
               = Normal false) by reflexivity.
  assert (H2 : OperationObject.tags PetstoreEdges.createPetBadTag = Some ["pet"; ""])
    by reflexivity.
  assert (H3 : "" ∈ ["pet"; ""])
    by (apply elem_of_cons; right; apply elem_of_cons; by left).
  assert (H4 : IResourceParser.value (t := PetstoreEdges.strictResourceParser) ""
               = Throw (Printable "Error: empty tag")) by reflexivity.
  split; [by repeat split|].
  destruct (visitOperation_bad_tag_drops_operation
              (resourceParser := PetstoreEdges.strictResourceParser)
              BaseOperationsCollector PetstoreEdges.createPetBadTag postPets s
              ["pet"; ""] "" (Printable "Error: empty tag") H1 H2 H3 H4)
    as (thrown & Hthrown & Hf & _ & Ho & Hcatch).
  fold s' in Hf, Ho, Hcatch.
  assert (Hwhat : thrown = Printable "Error: empty tag").
  { vm_compute in Hthrown. by injection Hthrown as <-. }
  subst thrown. destruct Hcatch as [Hret Hlog].
  split; [exact Hret|]. split; [exact Hlog|]. by split.
Defined.

(** Witness of X10: the two fields that [createPet] has put in the output
    are still its first two fields after [createPetTwice]. *)
Lemma walk_only_appends_witness :
  let s := (walk BaseOperationsCollector [(createPet, postPets)] (newCollector [])).2 in
  let s' := (walk BaseOperationsCollector [(createPetTwice, postPets)] s).2 in
  wf s
  ∧ objects s' (take 2 (fields s'))
    = INodeProperties.setDisplayOptions (shown "pet" "Create Pet") <$> createPetFields.
Proof.
  intros s s'.
  assert (H : wf s) by (vm_compute; repeat constructor).
  split; [exact H|].
  destruct (walk_only_appends BaseOperationsCollector [(createPetTwice, postPets)] s H)
    as (_ & _ & Hobj & _).
  exact Hobj.
Defined.

(** Witness of X13: after [createPet] the getter returns the selector of
    [pet], and it still does, at the same place, after [createPetTwice] and
    [unnamed]. *)
Lemma operations_stays_available_witness :
  let s := (walk BaseOperationsCollector [(createPet, postPets)] (newCollector [])).2 in
  let s' := (walk BaseOperationsCollector
               [(createPetTwice, postPets); (unnamed, postPets)] s).2 in
  operations s = Normal [operationSelector "pet" [createPetOption]]
  ∧ ∃ ops' field',
      operations s' = Normal ops'
      ∧ ops' !! 0 = Some field'
      ∧ INodeProperties.displayOptions field'
        = Some {| DisplayOptions.resource := ["pet"];
                  DisplayOptions.operation := None |}.
Proof.
  intros s s'.
  assert (H : operations s = Normal [operationSelector "pet" [createPetOption]])
    by (vm_compute; reflexivity).
  split; [exact H|].
  destruct (operations_stays_available BaseOperationsCollector
              [(createPetTwice, postPets); (unnamed, postPets)] s _ H)
    as (ops' & Hops & _ & Hnth).
  destruct (Hnth 0 _ eq_refl) as (field' & Hfield & Hshow).
  exists ops', field'. split; [exact Hops|]. split; [exact Hfield|exact Hshow].
Defined.

(** Witness of X15: [createPetTwice] through the subclass gives, for [pet]
    and for [store], the notice [POST /pets] and then the two fields. *)
Lemma OperationsCollector_visit_puts_notice_first_witness :
  let s := newCollector [] in
  let s' := (visitOperation OperationsCollector createPetTwice postPets s).2 in
  (wf s
   ∧ IOperationParser.shouldSkip createPetTwice postPets = Normal false
   ∧ (BaseOperationsCollector_parseOperation createPetTwice postPets s).1
     = Normal (createPetOption, createPetFields)
   ∧ OperationObject.tags createPetTwice = Some ["pet"; "store"]
   ∧ mapC IResourceParser.value ["pet"; "store"] = Normal ["pet"; "store"])
  ∧ objects s' (fields s')
    = (INodeProperties.setDisplayOptions (shown "pet" "Create Pet")
       <$> operationNotice postPets :: createPetFields)
      ++ (INodeProperties.setDisplayOptions (shown "store" "Create Pet")
          <$> operationNotice postPets :: createPetFields).
Proof.
  intros s s'.
  assert (H1 : wf s) by (vm_compute; constructor).
  assert (H2 : IOperationParser.shouldSkip createPetTwice postPets = Normal false)
    by reflexivity.
  assert (H3 : (BaseOperationsCollector_parseOperation createPetTwice postPets s).1
               = Normal (createPetOption, createPetFields))
    by (vm_compute; reflexivity).
  assert (H4 : OperationObject.tags createPetTwice = Some ["pet"; "store"])
    by reflexivity.
  assert (H5 : mapC IResourceParser.value ["pet"; "store"] = Normal ["pet"; "store"])
    by reflexivity.
  split; [by repeat split|].
  destruct (OperationsCollector_visit_puts_notice_first
              createPetTwice postPets s createPetOption createPetFields
              ["pet"; "store"] ["pet"; "store"] H1 H2 H3 H4 H5) as (Hobj & _).
  exact Hobj.
Defined.
